(** * AlxLib: a shallow embedding of [AlxLib/Alxlib.h] and its properties

    The header is a flat collection of numeric helpers: interpolation
    and clamping templates, a range mapper, a Lehmer style integer
    mixer with three hidden call counters, linear searches in a vector
    and a byte reversal.  Each function is transcribed below next to
    the C++ text it comes from.

    Conventions.
    - [float] is IEEE 754 binary32.  Its values are [spec_float]s and
      its operations are the ones of [SpecFloat] at precision 24 and
      exponent bound 128 (round to nearest, ties to even); [float]
      expressions are evaluated in [float].
    - [abs] in [NearTolerance] is the [float] overload that [<math.h>]
      puts into the global namespace; [pow] is a parameter.
    - [uint64_t], [uint32_t] and [uint8_t] are [Z] with the wrap-around
      written out; [int] is a 32-bit two's complement [Z].
    - [std::vector<T>] is [list T]. *)

From Stdlib Require Import ZArith List Bool Lia.
From Stdlib Require Import QArith Lqa.
From Stdlib Require Import Floats.SpecFloat.
From Stdlib Require Ascii String.
Import ListNotations.

Local Open Scope Z_scope.

(** ** binary32 arithmetic *)

Module F32.

Definition prec : Z := 24.
Definition emax : Z := 128.

Definition t : Type := spec_float.

Definition add : t -> t -> t := SFadd prec emax.
Definition sub : t -> t -> t := SFsub prec emax.
Definition mul : t -> t -> t := SFmul prec emax.
Definition div : t -> t -> t := SFdiv prec emax.
Definition abs : t -> t := SFabs.
Definition ltb : t -> t -> bool := SFltb.
Definition leb : t -> t -> bool := SFleb.
Definition eqb : t -> t -> bool := SFeqb.
(** [x >= y] and [x > y] are [y <= x] and [y < x], also on NaN. *)
Definition geb (x y : t) : bool := SFleb y x.
Definition gtb (x y : t) : bool := SFltb y x.

Definition valid (x : t) : bool := valid_binary prec emax x.

Definition is_nan (x : t) : bool :=
  match x with S754_nan => true | _ => false end.

(** A value that is neither an infinity nor NaN. *)
Definition is_finite (x : t) : bool :=
  match x with
  | S754_zero _ | S754_finite _ _ _ => true
  | _ => false
  end.

(** Conversion of an integer to [float] (rounds when it has more than
    24 significant bits). *)
Definition of_Z (z : Z) : t := binary_normalize prec emax z 0 false.

(** Conversion of a [float] to an integer: the fractional part is
    discarded.  Nothing is returned for an infinity or NaN; the range
    check against the target type is the caller's. *)
Definition trunc (x : t) : option Z :=
  match x with
  | S754_zero _ => Some 0
  | S754_finite s m e =>
      let a := match e with
               | Zneg p => Z.pos m / 2 ^ Z.pos p
               | _ => Z.pos m * 2 ^ e
               end in
      Some (if s then - a else a)
  | _ => None
  end.

Definition zero : t := S754_zero false.
Definition one : t := S754_finite false 8388608 (-23).
Definition half : t := S754_finite false 8388608 (-24).
Definition two : t := S754_finite false 8388608 (-22).

End F32.

(** ** The macros *)

(** [#define SMALL_NUMBER (1.e-8f)]: the binary32 value nearest to
    [10^-8], which is [11258999 * 2^-50]. *)
Definition SMALL_NUMBER : F32.t := S754_finite false 11258999 (-50).

(** ** namespace alx::tpl *)

(** [template<class T, class U> static T Lerp(T A, T B, U alpha)
      { return (T)(A + alpha * (B - A)); }]
    at [T = U = float]: every operation is a binary32 operation and the
    cast does nothing. *)
Definition Lerp_float (A B alpha : F32.t) : F32.t :=
  F32.add A (F32.mul alpha (F32.sub B A)).

(** ** Integral types

    [unsigned] arithmetic wraps modulo [2^32].  Signed overflow and the
    conversion of a [float] whose integral part does not fit the target
    type are undefined in C++: the model returns [None] there. *)

Definition wrap32 (z : Z) : Z := z mod 2 ^ 32.
Definition wrap64 (z : Z) : Z := z mod 2 ^ 64.

Definition INT_MIN : Z := - 2 ^ 31.
Definition INT_MAX : Z := 2 ^ 31 - 1.
Definition UINT64_MAX : Z := 2 ^ 64 - 1.

(** The result of an [int] operation whose exact value is [z]. *)
Definition int_result (z : Z) : option Z :=
  if (INT_MIN <=? z) && (z <=? INT_MAX) then Some z else None.

(** [(T)x] for an unsigned type of [w] bits and a [float] [x]. *)
Definition to_unsigned (w : Z) (x : F32.t) : option Z :=
  match F32.trunc x with
  | Some z => if (0 <=? z) && (z <? 2 ^ w) then Some z else None
  | None => None
  end.

(** [(int)x] for a [float] [x]. *)
Definition to_int (x : F32.t) : option Z :=
  match F32.trunc x with
  | Some z => int_result z
  | None => None
  end.

(** [Lerp<uint32_t, float>]: [B - A] is an [unsigned] subtraction; its
    result and [A] are converted to [float] for the product and the
    sum, and the sum is converted back. *)
Definition Lerp_uint32 (A B : Z) (alpha : F32.t) : option Z :=
  let diff := wrap32 (B - A) in
  to_unsigned 32 (F32.add (F32.of_Z A) (F32.mul alpha (F32.of_Z diff))).

(** [Lerp<uint8_t, float>]: the operands of [B - A] are promoted to
    [int] first. *)
Definition Lerp_uint8 (A B : Z) (alpha : F32.t) : option Z :=
  match int_result (B - A) with
  | Some diff =>
      to_unsigned 8 (F32.add (F32.of_Z A) (F32.mul alpha (F32.of_Z diff)))
  | None => None
  end.

(** [Lerp<int, float>]. *)
Definition Lerp_int (A B : Z) (alpha : F32.t) : option Z :=
  match int_result (B - A) with
  | Some diff =>
      to_int (F32.add (F32.of_Z A) (F32.mul alpha (F32.of_Z diff)))
  | None => None
  end.

(** The instantiations of [Lerp<T>] the other templates are used at. *)
Class Lerpable (T : Type) : Type := Lerp : T -> T -> F32.t -> option T.

Inductive uint32_t : Type := U32 (z : Z).
Inductive uint8_t : Type := U8 (z : Z).
Inductive int_t : Type := I32 (z : Z).

#[export] Instance Lerpable_float : Lerpable F32.t :=
  fun A B alpha => Some (Lerp_float A B alpha).
#[export] Instance Lerpable_uint32 : Lerpable uint32_t :=
  fun '(U32 A) '(U32 B) alpha => option_map U32 (Lerp_uint32 A B alpha).
#[export] Instance Lerpable_uint8 : Lerpable uint8_t :=
  fun '(U8 A) '(U8 B) alpha => option_map U8 (Lerp_uint8 A B alpha).
#[export] Instance Lerpable_int : Lerpable int_t :=
  fun '(I32 A) '(I32 B) alpha => option_map I32 (Lerp_int A B alpha).

(** ** Easing

    [pow] is the C library's; the functions below take it as a
    parameter. *)

Section Easing.

Variable pow : F32.t -> F32.t -> F32.t.

(** [template<class T> T InterpEaseIn(T A, T B, float Alpha, float Exp)] *)
Definition InterpEaseIn {T : Type} `{Lerpable T}
  (A B : T) (Alpha Exp : F32.t) : option T :=
  let ModifiedAlpha := pow Alpha Exp in
  Lerp A B ModifiedAlpha.

(** [template<class T> T InterpEaseOut(T A, T B, float Alpha, float Exp)] *)
Definition InterpEaseOut {T : Type} `{Lerpable T}
  (A B : T) (Alpha Exp : F32.t) : option T :=
  let ModifiedAlpha := F32.sub F32.one (pow (F32.sub F32.one Alpha) Exp) in
  Lerp A B ModifiedAlpha.

(** The two at [T = float], where the cast cannot fail. *)
Definition InterpEaseIn_float (A B Alpha Exp : F32.t) : F32.t :=
  let ModifiedAlpha := pow Alpha Exp in
  Lerp_float A B ModifiedAlpha.

Definition InterpEaseOut_float (A B Alpha Exp : F32.t) : F32.t :=
  let ModifiedAlpha := F32.sub F32.one (pow (F32.sub F32.one Alpha) Exp) in
  Lerp_float A B ModifiedAlpha.

(** The two arms of the conditional in [InterpEaseInOut]. *)
Definition EaseInHalf (alpha exp : F32.t) : F32.t :=
  F32.mul
    (InterpEaseIn_float F32.zero F32.one (F32.mul alpha F32.two) exp)
    F32.half.

Definition EaseOutHalf (alpha exp : F32.t) : F32.t :=
  F32.add
    (F32.mul
       (InterpEaseOut_float F32.zero F32.one
          (F32.sub (F32.mul alpha F32.two) F32.one) exp)
       F32.half)
    F32.half.

(** [template<class T> T InterpEaseInOut(T A, T B, float alpha, float exp)] *)
Definition InterpEaseInOut {T : Type} `{Lerpable T}
  (A B : T) (alpha exp : F32.t) : option T :=
  Lerp A B
    (if F32.ltb alpha F32.half
     then EaseInHalf alpha exp
     else EaseOutHalf alpha exp).

End Easing.

(** [template<class T> T Clamp(T value, T Min, T Max)
      { return value < Min ? Min : value < Max ? value : Max; }]
    The template asks its type for [<] only. *)
Class Less (T : Type) : Type := less : T -> T -> bool.

Definition Clamp {T : Type} `{Less T} (value Min Max : T) : T :=
  if less value Min then Min else if less value Max then value else Max.

#[export] Instance Less_float : Less F32.t := F32.ltb.
#[export] Instance Less_int : Less Z := Z.ltb.

(** ** namespace alx: float wrappers *)

Definition fLerp (A B alpha : F32.t) : F32.t := Lerp_float A B alpha.

Definition fClamp (value min max : F32.t) : F32.t :=
  Clamp (T := F32.t) value min max.

(** ** Number manipulation *)

(** [bool NearTolerance(float value, float errorTolerance = SMALL_NUMBER)
      { return abs(value) <= errorTolerance; }] *)
Definition NearTolerance (value errorTolerance : F32.t) : bool :=
  F32.leb (F32.abs value) errorTolerance.

(** [static float GetRangeAlpha(float minValue, float maxValue, float value)
      { const float div = maxValue - minValue;
        if (NearTolerance(div))
          return (value >= maxValue) ? 1.0f : 0.0f;
        return (value - minValue) / div; }] *)
Definition GetRangeAlpha (minValue maxValue value : F32.t) : F32.t :=
  let div := F32.sub maxValue minValue in
  if NearTolerance div SMALL_NUMBER
  then (if F32.geb value maxValue then F32.one else F32.zero)
  else F32.div (F32.sub value minValue) div.

(** The same function, returning next to its result the number of
    divisions it has executed. *)
Definition GetRangeAlpha_traced (minValue maxValue value : F32.t)
  : F32.t * nat :=
  let div := F32.sub maxValue minValue in
  if NearTolerance div SMALL_NUMBER
  then ((if F32.geb value maxValue then F32.one else F32.zero), 0%nat)
  else (F32.div (F32.sub value minValue) div, 1%nat).

(** [float GetMappedValueUnclamped(...)] *)
Definition GetMappedValueUnclamped
  (inMin inMax outMin outMax value : F32.t) : F32.t :=
  fLerp outMin outMax (GetRangeAlpha inMin inMax value).

(** [float GetMappedValueClamped(...)] *)
Definition GetMappedValueClamped
  (inMin inMax outMin outMax value : F32.t) : F32.t :=
  let clampedAlpha :=
    fClamp (GetRangeAlpha inMin inMax value) F32.zero F32.one in
  fLerp outMin outMax clampedAlpha.

(** ** Random numbers *)

(** [uint64_t LehmerInt64(const uint64_t seed)] *)
Definition LehmerInt64 (seed : Z) : Z :=
  let sLehmer := seed in
  let sLehmer := wrap64 (sLehmer + 0xe120fc15) in
  let tmp := wrap64 (sLehmer * 0x4a39b70d) in
  let m1 := Z.lxor (Z.shiftr tmp 32) tmp in
  let tmp := wrap64 (m1 * 0x12fad5c9) in
  let m2 := Z.lxor (Z.shiftr tmp 32) tmp in
  m2.

(** [float LehmerFloat(const uint64_t seed)] *)
Definition LehmerFloat (seed : Z) : F32.t :=
  F32.div (F32.of_Z (LehmerInt64 seed)) (F32.of_Z UINT64_MAX).

(** [bool randBool(const uint64_t seed)] *)
Definition randBool (seed : Z) : bool :=
  negb ((LehmerInt64 seed) mod 2 =? 0).

(** The overloads without a seed keep one [static uint64_t seed] each.
    [World] holds the three of them, and a log of the arguments
    [LehmerInt64(seed)] has been called with by each overload, the
    latest call first. *)
Inductive EntryPoint : Type :=
  | NoSeedInt64 | NoSeedFloat | NoSeedBool.

Definition EntryPoint_eqb (a b : EntryPoint) : bool :=
  match a, b with
  | NoSeedInt64, NoSeedInt64 | NoSeedFloat, NoSeedFloat
  | NoSeedBool, NoSeedBool => true
  | _, _ => false
  end.

Record World : Type := mkWorld {
  seed_LehmerInt64 : Z;
  seed_LehmerFloat : Z;
  seed_randBool : Z;
  mixed : list (EntryPoint * Z)
}.

(** Statics are zero-initialised. *)
Definition initial : World := mkWorld 0 0 0 [].

Definition M (A : Type) : Type := World -> A * World.

Definition ret {A : Type} (a : A) : M A := fun w => (a, w).

Definition bind {A B : Type} (m : M A) (k : A -> M B) : M B :=
  fun w => let (a, w') := m w in k a w'.

Notation "x <- m ;; k" := (bind m (fun x => k))
  (at level 61, m at next level, right associativity).

(** The call [LehmerInt64(seed)] made from the overload [who]. *)
Definition mix (who : EntryPoint) (seed : Z) : M Z :=
  fun w =>
    (LehmerInt64 seed,
     mkWorld (seed_LehmerInt64 w) (seed_LehmerFloat w) (seed_randBool w)
       ((who, seed) :: mixed w)).

(** [seed++] on each of the three statics; the new value is returned. *)
Definition incr_LehmerInt64 : M Z :=
  fun w =>
    let s := wrap64 (seed_LehmerInt64 w + 1) in
    (s, mkWorld s (seed_LehmerFloat w) (seed_randBool w) (mixed w)).

Definition incr_LehmerFloat : M Z :=
  fun w =>
    let s := wrap64 (seed_LehmerFloat w + 1) in
    (s, mkWorld (seed_LehmerInt64 w) s (seed_randBool w) (mixed w)).

Definition incr_randBool : M Z :=
  fun w =>
    let s := wrap64 (seed_randBool w + 1) in
    (s, mkWorld (seed_LehmerInt64 w) (seed_LehmerFloat w) s (mixed w)).

(** [uint64_t LehmerInt64()] *)
Definition LehmerInt64_noseed : M Z :=
  seed <- incr_LehmerInt64 ;;
  mix NoSeedInt64 seed.

(** [float LehmerFloat()] *)
Definition LehmerFloat_noseed : M F32.t :=
  seed <- incr_LehmerFloat ;;
  r <- mix NoSeedFloat seed ;;
  ret (F32.div (F32.of_Z r) (F32.of_Z UINT64_MAX)).

(** [bool randBool()] *)
Definition randBool_noseed : M bool :=
  seed <- incr_randBool ;;
  r <- mix NoSeedBool seed ;;
  ret (negb (r mod 2 =? 0)).

(** One call of an overload, its result dropped. *)
Definition call (e : EntryPoint) (w : World) : World :=
  match e with
  | NoSeedInt64 => snd (LehmerInt64_noseed w)
  | NoSeedFloat => snd (LehmerFloat_noseed w)
  | NoSeedBool => snd (randBool_noseed w)
  end.

(** A process: the overloads called in the order of the list. *)
Definition run (calls : list EntryPoint) (w : World) : World :=
  fold_left (fun w e => call e w) calls w.

Definition counter (e : EntryPoint) (w : World) : Z :=
  match e with
  | NoSeedInt64 => seed_LehmerInt64 w
  | NoSeedFloat => seed_LehmerFloat w
  | NoSeedBool => seed_randBool w
  end.

(** The seeds [e] has handed to [LehmerInt64(seed)], in call order. *)
Definition seeds_of (e : EntryPoint) (w : World) : list Z :=
  rev (map snd (filter (fun q => EntryPoint_eqb e (fst q)) (mixed w))).

Definition calls_to (e : EntryPoint) (calls : list EntryPoint) : nat :=
  length (filter (EntryPoint_eqb e) calls).

(** The reference algorithm, as the documentation words it: one round
    multiplies modulo [2^64] and folds the high 32 bits of the product
    onto the product. *)
Definition mix_round (c x : Z) : Z :=
  let product := (x * c) mod 18446744073709551616 in
  let high := product / 4294967296 in
  Z.lxor high product.

Definition mix_reference (seed : Z) : Z :=
  mix_round 318428617 (mix_round 1245296397 (seed + 3777035285)).

(** ** Searching a vector *)

Section Find.

Context {T : Type}.
(** [operator==] of the element type. *)
Variable equal : T -> T -> bool.

(** [for (int i = ...; i < vect.size(); i++)] of the first overload,
    from index [i] on, [rest] being the elements not yet visited. *)
Fixpoint findInVector_from (a : T) (rest : list T) (i : Z) : option Z :=
  match rest with
  | [] => Some (-1)
  | x :: rest' =>
      if equal a x then Some i
      else match int_result (i + 1) with
           | Some i' => findInVector_from a rest' i'
           | None => None
           end
  end.

(** [template <class T> int findInVector(T a, std::vector<T> vect)] *)
Definition findInVector (a : T) (vect : list T) : option Z :=
  findInVector_from a vect 0.

(** The loop of the overload with [nth]. *)
Fixpoint findInVector_nth_from (a : T) (rest : list T) (nth : Z)
  (i iteration : Z) : option Z :=
  match rest with
  | [] => Some (-1)
  | x :: rest' =>
      if equal a x then
        if iteration =? nth then Some i
        else
          match int_result (iteration + 1), int_result (i + 1) with
          | Some iteration', Some i' =>
              findInVector_nth_from a rest' nth i' iteration'
          | _, _ => None
          end
      else
        match int_result (i + 1) with
        | Some i' => findInVector_nth_from a rest' nth i' iteration
        | None => None
        end
  end.

(** [template <class T> int findInVector(T a, std::vector<T> vect, int nth)] *)
Definition findInVector_nth (a : T) (vect : list T) (nth : Z) : option Z :=
  let iteration := 1 in
  findInVector_nth_from a vect nth 0 iteration.

(** Number of elements of [l] equal to [a]. *)
Definition occurrences (a : T) (l : list T) : Z :=
  Z.of_nat (length (filter (equal a) l)).

End Find.

(** ** Bit operations *)

(** [uint32_t maskBits(uint32_t a, uint32_t mask)] *)
Definition maskBits (a mask : Z) : Z := Z.land a mask.

(** One line of [reverseBits]:
    [a = (a & hi) >> k | (a & lo) << k;] on [uint32_t]. *)
Definition swap_stage (k hi lo a : Z) : Z :=
  wrap32 (Z.lor (Z.shiftr (Z.land a hi) k) (wrap32 (Z.shiftl (Z.land a lo) k))).

(** [uint32_t reverseBits(uint32_t a)] *)
Definition reverseBits (a : Z) : Z :=
  let a := swap_stage 4 0xF0 0x0F a in
  let a := swap_stage 2 0xCC 0x33 a in
  let a := swap_stage 1 0xAA 0x55 a in
  a.

(** The byte whose bit [i] is bit [7 - i] of [b]. *)
Definition bit_reversed_byte (b : Z) : Z :=
  fold_right
    (fun i acc => if Z.testbit b (7 - i) then Z.setbit acc i else acc)
    0 [0; 1; 2; 3; 4; 5; 6; 7].

(** ** Ordered element types

    What [Clamp] is documented with: [<=] and [==] next to [<].  The
    laws are the ones binary32 comparison keeps in the presence of NaN,
    which compares false with everything. *)
Class Comparable (T : Type) `{Less T} : Type := {
  less_eq : T -> T -> bool;
  equal_to : T -> T -> bool
}.

#[export] Instance Comparable_float : Comparable F32.t := {
  less_eq := F32.leb;
  equal_to := F32.eqb
}.

#[export] Instance Comparable_int : Comparable Z := {
  less_eq := Z.leb;
  equal_to := Z.eqb
}.

Class ComparableLaws (T : Type) `{Comparable T} : Prop := {
  less_less_eq : forall a b : T, less a b = true -> less_eq a b = true;
  less_eq_not_less : forall a b : T, less_eq a b = true -> less b a = false;
  less_eq_self : forall a b : T,
    less_eq a b = true -> less_eq a a = true /\ less_eq b b = true;
  not_less_less_eq : forall a b : T,
    less_eq a a = true -> less_eq b b = true ->
    less a b = false -> less_eq b a = true;
  less_eq_not_less_equal : forall a b : T,
    less_eq a b = true -> less a b = false -> equal_to b a = true;
  equal_to_self : forall a : T, less_eq a a = true -> equal_to a a = true
}.

(** [Clamp] as the documentation describes it: [value] if
    [min <= value < max], else [min] if [value < min], else [max]. *)
Definition Clamp_documented {T : Type} `{Comparable T}
  (value Min Max : T) : T :=
  if less_eq Min value && less value Max then value
  else if less value Min then Min
  else Max.

(** A stand-in for the C library's [pow] on the arguments where its
    value needs no rounding; NaN elsewhere. *)
Definition pow_sample (x y : F32.t) : F32.t :=
  if F32.eqb x F32.one then F32.one
  else if F32.eqb y F32.zero then F32.one
  else if F32.eqb y F32.one then x
  else S754_nan.

(** [Lerp<uint32_t>] as the documentation describes it: the difference
    is taken in a type wide enough for it. *)
Definition Lerp_uint32_widened (A B : Z) (alpha : F32.t) : option Z :=
  to_unsigned 32 (F32.add (F32.of_Z A) (F32.mul alpha (F32.of_Z (B - A)))).

(** The expression of [Lerp] evaluated on rationals, without rounding. *)
Definition Lerp_exact (A B alpha : Q) : Q := (A + alpha * (B - A))%Q.

(** ** Auxiliary definitions for the proofs *)

(** The k-th seed an overload uses is [k], reduced modulo [2^64]. *)
Definition seed_number (k : nat) : Z := wrap64 (Z.of_nat k).

(** The 256 values of a byte. *)
Definition bytes : list Z := map Z.of_nat (seq 0 256).

(** What is checked on each byte [b]: the three stages stay in the low
    byte and move bit [i] to [i xor 4], [i xor 2] and [i xor 1], and
    the whole is the reversed byte. *)
Definition stages_checked (b : Z) : bool :=
  let s1 := swap_stage 4 0xF0 0x0F b in
  let s2 := swap_stage 2 0xCC 0x33 s1 in
  let s3 := swap_stage 1 0xAA 0x55 s2 in
  (s1 <? 256) && (s2 <? 256) && (s3 <? 256)
  && (reverseBits b =? bit_reversed_byte b)
  && forallb
       (fun i =>
          Bool.eqb (Z.testbit s1 i) (Z.testbit b (Z.lxor i 4))
          && Bool.eqb (Z.testbit s2 i) (Z.testbit s1 (Z.lxor i 2))
          && Bool.eqb (Z.testbit s3 i) (Z.testbit s2 (Z.lxor i 1))
          && Bool.eqb (Z.testbit s3 i) (Z.testbit b (7 - i)))
       [0; 1; 2; 3; 4; 5; 6; 7].

(** What the loop keeps true: [i] elements have been visited, at most
    [iteration - 1] of them were occurrences, and the vector is short
    enough for neither counter to leave [int]. *)
Definition loop_invariant {T : Type} (rest : list T) (i iteration : Z)
  : Prop :=
  0 <= i /\ 1 <= iteration <= i + 1
  /\ i + Z.of_nat (length rest) < INT_MAX.



(** Two vectors at the limit of [int]: [INT_MAX + 1] zeros, one more
    than [int i] can count, and [INT_MAX] zeros, as many as [int i] can
    count and one more than [int iteration], which starts at [1],
    can. *)
Definition long_vector : list Z := repeat 0 (Z.to_nat (INT_MAX + 1)).
Definition full_vector : list Z := repeat 0 (Z.to_nat INT_MAX).

(** ** The remaining wrappers and helpers of the header *)

(** [float fInterpEaseIn(float A, float B, float alpha, float exp)] and
    [float fInterpEaseOut(...)]: the templates at [T = float]. *)
Definition fInterpEaseIn (pow : F32.t -> F32.t -> F32.t)
  (A B alpha exp : F32.t) : F32.t :=
  InterpEaseIn_float pow A B alpha exp.

Definition fInterpEaseOut (pow : F32.t -> F32.t -> F32.t)
  (A B alpha exp : F32.t) : F32.t :=
  InterpEaseOut_float pow A B alpha exp.

(** [n] calls of [LehmerInt64()] in a row: the values returned, in call
    order, and the world they leave. *)
Fixpoint LehmerInt64_noseed_times (n : nat) (w : World) : list Z * World :=
  match n with
  | O => ([], w)
  | S k =>
      let (r, w1) := LehmerInt64_noseed w in
      let (rs, w2) := LehmerInt64_noseed_times k w1 in
      (r :: rs, w2)
  end.

(** [std::string decToBin32(int32_t decimal)
      { return std::bitset<32>(decimal).to_string(); }]
    and its 16-bit twin.  [std::bitset<N>(v)] keeps the [N] low bits of
    the two's complement pattern of [v]; [to_string()] writes them from
    bit [N - 1] down to bit [0], as ['1'] and ['0']. *)
Module BinaryStrings.

Import Ascii String.

Definition bit_char (b : bool) : ascii := if b then "1"%char else "0"%char.

Fixpoint bitset_to_string (N : nat) (v : Z) : string :=
  match N with
  | O => EmptyString
  | S k => String (bit_char (Z.testbit v (Z.of_nat k))) (bitset_to_string k v)
  end.

Definition decToBin32 (decimal : Z) : string := bitset_to_string 32 decimal.

Definition decToBin16 (decimal : Z) : string := bitset_to_string 16 decimal.

(** Reading a string of binary digits back, most significant first;
    [acc] is the value of the digits already read.  Any character
    other than ['1'] counts as ['0']. *)
Fixpoint binary_value_from (acc : Z) (s : string) : Z :=
  match s with
  | EmptyString => acc
  | String c rest =>
      binary_value_from (2 * acc + (if Ascii.eqb c "1" then 1 else 0)) rest
  end.

Definition binary_value (s : string) : Z := binary_value_from 0 s.

End BinaryStrings.

(** ** Auxiliary definitions for the further properties *)

(** The steps of [LehmerInt64] undone in reverse order; the two
    constants are the inverses of [0x12fad5c9] and [0x4a39b70d] modulo
    [2^64]. *)
Definition LehmerInt64_inverse (r : Z) : Z :=
  let tmp := Z.lxor (Z.shiftr r 32) r in
  let m1 := wrap64 (tmp * 5642803286419657849) in
  let tmp := Z.lxor (Z.shiftr m1 32) m1 in
  let sLehmer := wrap64 (tmp * 14320223067223486405) in
  wrap64 (sLehmer - 0xe120fc15).

(** Structural equality of two [float] values. *)
Definition same_float (x y : F32.t) : bool :=
  match x, y with
  | S754_zero a, S754_zero b => Bool.eqb a b
  | S754_infinity a, S754_infinity b => Bool.eqb a b
  | S754_nan, S754_nan => true
  | S754_finite a m e, S754_finite b n f =>
      Bool.eqb a b && Pos.eqb m n && Z.eqb e f
  | _, _ => false
  end.

(** The differences of two bytes, and what is checked on each for
    [Lerp<uint8_t>]: times [0] it is a zero, times [1] it is itself. *)
Definition byte_differences : list Z :=
  map (fun k => Z.of_nat k - 255) (seq 0 511).

Definition products_checked (d : Z) : bool :=
  match F32.mul F32.zero (F32.of_Z d) with
  | S754_zero _ => true
  | _ => false
  end
  && same_float (F32.mul F32.one (F32.of_Z d)) (F32.of_Z d).

(** What is checked on each byte [A]: adding a zero and converting
    back gives [A]; and on each pair of bytes: the sum for alpha [1]
    converts to [B], the sum for alpha [0.5] to the mean rounded
    down. *)
Definition zero_sum_checked (A : Z) : bool :=
  let fA := F32.of_Z A in
  match to_unsigned 8 (F32.add fA (S754_zero false)),
        to_unsigned 8 (F32.add fA (S754_zero true)) with
  | Some r, Some r' => (r =? A) && (r' =? A)
  | _, _ => false
  end.

Definition sums_checked (A B : Z) : bool :=
  let fA := F32.of_Z A in
  let fd := F32.of_Z (B - A) in
  match to_unsigned 8 (F32.add fA fd),
        to_unsigned 8 (F32.add fA (F32.mul F32.half fd)) with
  | Some r1, Some rh => (r1 =? B) && (rh =? (A + B) / 2)
  | _, _ => false
  end.

(** ** Facts about binary32 comparison *)

Module F32Facts.

Lemma compare_antisym (a b : F32.t) :
  SFcompare b a = option_map CompOpp (SFcompare a b).
Proof.
  destruct a as [sa|sa| |sa ma ea], b as [sb|sb| |sb mb eb]; simpl;
    try reflexivity;
    try (destruct sa; reflexivity);
    try (destruct sb; reflexivity);
    try (destruct sa, sb; reflexivity).
  assert (Hm : Pos.compare_cont Eq mb ma
               = CompOpp (Pos.compare_cont Eq ma mb))
    by (symmetry; apply (Pos.compare_cont_antisym ma mb Eq)).
  destruct sa, sb; simpl; try reflexivity;
    rewrite (Z.compare_antisym ea eb), Hm;
    destruct (ea ?= eb); simpl; try reflexivity;
    destruct (Pos.compare_cont Eq ma mb); reflexivity.
Qed.

Lemma compare_refl (a : F32.t) :
  F32.is_nan a = false -> SFcompare a a = Some Eq.
Proof.
  destruct a as [s|s| |s m e]; simpl; intros Hn;
    try discriminate; try reflexivity.
  - destruct s; reflexivity.
  - rewrite Z.compare_refl.
    change (Pos.compare_cont Eq m m) with (Pos.compare m m).
    rewrite Pos.compare_refl. destruct s; reflexivity.
Qed.

Lemma compare_nan_l (a b : F32.t) :
  F32.is_nan a = true -> SFcompare a b = None.
Proof. destruct a; simpl; intros; try discriminate; reflexivity. Qed.

Lemma compare_nan_r (a b : F32.t) :
  F32.is_nan b = true -> SFcompare a b = None.
Proof.
  destruct b; simpl; intros; try discriminate.
  destruct a; reflexivity.
Qed.

Lemma compare_some (a b : F32.t) :
  F32.is_nan a = false -> F32.is_nan b = false ->
  exists c, SFcompare a b = Some c.
Proof.
  destruct a, b; simpl; intros; try discriminate; eexists; reflexivity.
Qed.

(** [a <= a] holds exactly when [a] is not NaN. *)
Lemma leb_refl_iff (a : F32.t) :
  F32.leb a a = true <-> F32.is_nan a = false.
Proof.
  unfold F32.leb, SFleb. split; intros H.
  - destruct (F32.is_nan a) eqn:E; [|reflexivity].
    rewrite (compare_nan_l a a E) in H. discriminate.
  - rewrite (compare_refl a H). reflexivity.
Qed.

Lemma leb_not_nan (a b : F32.t) :
  F32.leb a b = true -> F32.is_nan a = false /\ F32.is_nan b = false.
Proof.
  unfold F32.leb, SFleb. intros H. split.
  - destruct (F32.is_nan a) eqn:E; [|reflexivity].
    rewrite (compare_nan_l a b E) in H. discriminate.
  - destruct (F32.is_nan b) eqn:E; [|reflexivity].
    rewrite (compare_nan_r a b E) in H. discriminate.
Qed.

Lemma ltb_not_nan (a b : F32.t) :
  F32.ltb a b = true -> F32.is_nan a = false /\ F32.is_nan b = false.
Proof.
  unfold F32.ltb, SFltb. intros H. apply leb_not_nan.
  unfold F32.leb, SFleb. destruct (SFcompare a b) as [[]|]; congruence.
Qed.

Lemma ltb_leb (a b : F32.t) : F32.ltb a b = true -> F32.leb a b = true.
Proof.
  unfold F32.ltb, F32.leb, SFltb, SFleb.
  destruct (SFcompare a b) as [[]|]; congruence.
Qed.

Lemma leb_not_gtb (a b : F32.t) : F32.leb a b = true -> F32.ltb b a = false.
Proof.
  unfold F32.ltb, F32.leb, SFltb, SFleb.
  rewrite (compare_antisym a b).
  destruct (SFcompare a b) as [[]|]; simpl; congruence.
Qed.

Lemma not_ltb_leb (a b : F32.t) :
  F32.is_nan a = false -> F32.is_nan b = false ->
  F32.ltb a b = false -> F32.leb b a = true.
Proof.
  intros Ha Hb. unfold F32.ltb, F32.leb, SFltb, SFleb.
  rewrite (compare_antisym a b).
  destruct (compare_some a b Ha Hb) as [c ->].
  destruct c; simpl; congruence.
Qed.

Lemma leb_not_ltb_eqb (a b : F32.t) :
  F32.leb a b = true -> F32.ltb a b = false -> F32.eqb b a = true.
Proof.
  unfold F32.ltb, F32.leb, F32.eqb, SFltb, SFleb, SFeqb.
  rewrite (compare_antisym a b).
  destruct (SFcompare a b) as [[]|]; simpl; congruence.
Qed.

Lemma eqb_refl (a : F32.t) : F32.leb a a = true -> F32.eqb a a = true.
Proof.
  intros H. apply leb_refl_iff in H.
  unfold F32.eqb, SFeqb. rewrite (compare_refl a H). reflexivity.
Qed.

End F32Facts.

(** ** [Clamp] *)

#[export] Instance ComparableLaws_float : ComparableLaws F32.t.
Proof.
  split.
  - exact F32Facts.ltb_leb.
  - exact F32Facts.leb_not_gtb.
  - intros a b Hab. destruct (F32Facts.leb_not_nan a b Hab).
    split; apply F32Facts.leb_refl_iff; assumption.
  - intros a b Ha Hb. apply F32Facts.not_ltb_leb;
      apply F32Facts.leb_refl_iff; assumption.
  - exact F32Facts.leb_not_ltb_eqb.
  - exact F32Facts.eqb_refl.
Qed.

#[export] Instance ComparableLaws_int : ComparableLaws Z.
Proof.
  split; unfold less, Less_int; simpl; intros; try split; lia.
Qed.

Section ClampProperties.

Context {T : Type} `{ComparableLaws T}.

Lemma Clamp_lower (value Min Max : T) :
  less_eq Min Max = true -> less_eq Min (Clamp value Min Max) = true.
Proof.
  intros Hmm. unfold Clamp.
  destruct (less_eq_self _ _ Hmm) as [Hmin Hmax].
  destruct (less value Min) eqn:E1; [assumption|].
  destruct (less value Max) eqn:E2; [|assumption].
  apply not_less_less_eq; try assumption.
  apply less_less_eq in E2. apply (less_eq_self _ _ E2).
Qed.

Lemma Clamp_upper (value Min Max : T) :
  less_eq Min Max = true -> less_eq (Clamp value Min Max) Max = true.
Proof.
  intros Hmm. unfold Clamp.
  destruct (less_eq_self _ _ Hmm) as [Hmin Hmax].
  destruct (less value Min) eqn:E1; [assumption|].
  destruct (less value Max) eqn:E2; [|assumption].
  apply less_less_eq; assumption.
Qed.

Lemma Clamp_at_Min (Min Max : T) :
  less_eq Min Max = true -> equal_to (Clamp Min Min Max) Min = true.
Proof.
  intros Hmm. unfold Clamp.
  destruct (less_eq_self _ _ Hmm) as [Hmin Hmax].
  rewrite (less_eq_not_less _ _ Hmin).
  destruct (less Min Max) eqn:E.
  - apply equal_to_self; assumption.
  - apply less_eq_not_less_equal; assumption.
Qed.

Lemma Clamp_at_Max (Min Max : T) :
  less_eq Min Max = true -> equal_to (Clamp Max Min Max) Max = true.
Proof.
  intros Hmm. unfold Clamp.
  destruct (less_eq_self _ _ Hmm) as [Hmin Hmax].
  rewrite (less_eq_not_less _ _ Hmm), (less_eq_not_less _ _ Hmax).
  apply equal_to_self; assumption.
Qed.

(** When [value] and [Min] can be compared, the code and the
    documented case analysis agree. *)
Lemma Clamp_is_documented (value Min Max : T) :
  less value Min || less_eq Min value = true ->
  Clamp value Min Max = Clamp_documented value Min Max.
Proof.
  unfold Clamp, Clamp_documented. intros Hc.
  destruct (less value Min) eqn:E1.
  - destruct (less_eq Min value) eqn:E2; [|reflexivity].
    apply less_eq_not_less in E2. congruence.
  - simpl in Hc. rewrite Hc. simpl.
    destruct (less value Max); reflexivity.
Qed.

(** C5 (amended).  [Clamp(value, min, max)] is [min] if [value < min],
    else [value] if [value < max], else [max].  Whenever [value] and
    [min] are comparable ([value < min] or [min <= value]) this is the
    documented case analysis: [value] if [min <= value < max], [min]
    if [value < min], [max] otherwise.  Whenever [min <= max] the
    result lies in [[min, max]], [Clamp(min, min, max) == min] and
    [Clamp(max, min, max) == max]. *)
Theorem Clamp_cases_and_range (value Min Max : T) :
  Clamp value Min Max
    = (if less value Min then Min
       else if less value Max then value else Max)
  /\ (less value Min || less_eq Min value = true ->
      Clamp value Min Max = Clamp_documented value Min Max)
  /\ (less_eq Min Max = true ->
      less_eq Min (Clamp value Min Max) = true
      /\ less_eq (Clamp value Min Max) Max = true
      /\ equal_to (Clamp Min Min Max) Min = true
      /\ equal_to (Clamp Max Min Max) Max = true).
Proof.
  split; [reflexivity|]. split.
  - apply Clamp_is_documented.
  - intros Hmm. repeat split.
    + apply Clamp_lower; assumption.
    + apply Clamp_upper; assumption.
    + apply Clamp_at_Min; assumption.
    + apply Clamp_at_Max; assumption.
Qed.

End ClampProperties.

(** The amended statement at [float] with [0.5] in [[0, 1]], and at
    [int] with [7] above [[0, 5]]. *)
Lemma Clamp_cases_and_range_witness :
  (fClamp F32.half F32.zero F32.one = F32.half
   /\ F32.leb F32.zero (fClamp F32.half F32.zero F32.one) = true
   /\ F32.leb (fClamp F32.half F32.zero F32.one) F32.one = true)
  /\ (Clamp 7 0 5 = Clamp_documented 7 0 5 /\ (Clamp 7 0 5 <=? 5) = true).
Proof.
  split.
  - destruct (Clamp_cases_and_range (T := F32.t) F32.half F32.zero F32.one)
      as (_ & Hdoc & Hrange).
    split.
    + rewrite (Hdoc eq_refl : fClamp _ _ _ = _). reflexivity.
    + destruct (Hrange eq_refl) as (Hlo & Hhi & _). split; assumption.
  - destruct (Clamp_cases_and_range (T := Z) 7 0 5) as (_ & Hdoc & Hrange).
    split.
    + exact (Hdoc eq_refl).
    + destruct (Hrange eq_refl) as (_ & Hhi & _). exact Hhi.
Defined.

(** C5 as stated fails at [float] when [min] is NaN: with
    [value = 0.5], [min = NaN], [max = 1] neither [min <= value] nor
    [value < min] holds, so the documented result is [max = 1], while
    the code answers [value < max] and returns [0.5]. *)
Lemma Clamp_documented_fails_on_nan_min :
  fClamp F32.half S754_nan F32.one = F32.half
  /\ Clamp_documented F32.half S754_nan F32.one = F32.one
  /\ F32.eqb (fClamp F32.half S754_nan F32.one)
       (Clamp_documented F32.half S754_nan F32.one) = false.
Proof. repeat split. Qed.

(** ** The range mapper *)

(** [SMALL_NUMBER] is a normal binary32 number and the closest one to
    [10^-8]: its distance to [10^-8] is at most half a unit in the last
    place, [2^-51]. *)
Lemma SMALL_NUMBER_nearest :
  F32.valid SMALL_NUMBER = true
  /\ 2 * Z.abs (11258999 * 10 ^ 8 - 2 ^ 50) <= 10 ^ 8.
Proof. split; [reflexivity | vm_compute; discriminate]. Qed.

Lemma sub_diag_finite (x : F32.t) :
  F32.is_finite x = true -> F32.sub x x = F32.zero.
Proof.
  destruct x as [s|s| |s m e]; simpl; intros Hf; try discriminate.
  - destruct s; reflexivity.
  - unfold F32.sub, SFsub. rewrite Z.sub_diag. reflexivity.
Qed.

(** The traced function computes the result of the plain one. *)
Lemma GetRangeAlpha_traced_result (minValue maxValue value : F32.t) :
  fst (GetRangeAlpha_traced minValue maxValue value)
  = GetRangeAlpha minValue maxValue value.
Proof.
  unfold GetRangeAlpha, GetRangeAlpha_traced.
  destruct (NearTolerance _ _); reflexivity.
Qed.

(** Equal finite bounds always take the guarded branch. *)
Lemma GetRangeAlpha_equal_bounds (bound value : F32.t) :
  F32.is_finite bound = true ->
  GetRangeAlpha_traced bound bound value
    = ((if F32.geb value bound then F32.one else F32.zero), 0%nat).
Proof.
  intros Hf. unfold GetRangeAlpha_traced.
  rewrite (sub_diag_finite bound Hf). reflexivity.
Qed.

(** C1.  When [|maxValue - minValue| <= SMALL_NUMBER] (the binary32
    difference against the binary32 constant [1e-8f]),
    [GetRangeAlpha] executes no division and returns [1.0] if
    [value >= maxValue] and [0.0] otherwise; when the test fails it
    returns [(value - minValue) / (maxValue - minValue)], with one
    division.  [GetRangeAlpha(5, 5, 3) == 0.0] and
    [GetRangeAlpha(5, 5, 7) == 1.0]. *)
Theorem GetRangeAlpha_guard (minValue maxValue value : F32.t) :
  fst (GetRangeAlpha_traced minValue maxValue value)
  = GetRangeAlpha minValue maxValue value
  /\ (F32.leb (F32.abs (F32.sub maxValue minValue)) SMALL_NUMBER = true ->
      snd (GetRangeAlpha_traced minValue maxValue value) = 0%nat
      /\ GetRangeAlpha minValue maxValue value
         = (if F32.geb value maxValue then F32.one else F32.zero))
  /\ (F32.leb (F32.abs (F32.sub maxValue minValue)) SMALL_NUMBER = false ->
      snd (GetRangeAlpha_traced minValue maxValue value) = 1%nat
      /\ GetRangeAlpha minValue maxValue value
         = F32.div (F32.sub value minValue) (F32.sub maxValue minValue))
  /\ GetRangeAlpha (F32.of_Z 5) (F32.of_Z 5) (F32.of_Z 3) = F32.zero
  /\ GetRangeAlpha (F32.of_Z 5) (F32.of_Z 5) (F32.of_Z 7) = F32.one.
Proof.
  split; [apply GetRangeAlpha_traced_result|].
  unfold GetRangeAlpha, GetRangeAlpha_traced, NearTolerance.
  split; [|split; [|split; reflexivity]].
  - intros ->. split; reflexivity.
  - intros ->. split; reflexivity.
Qed.

(** Both branches at concrete ranges: [[5, 5]] is degenerate, [[0, 10]]
    is not and [15] sits at [1.5] of it. *)
Lemma GetRangeAlpha_guard_witness :
  GetRangeAlpha (F32.of_Z 5) (F32.of_Z 5) (F32.of_Z 5) = F32.one
  /\ GetRangeAlpha (F32.of_Z 0) (F32.of_Z 10) (F32.of_Z 15)
     = S754_finite false 12582912 (-23).
Proof.
  split.
  - exact (proj2 (proj1 (proj2 (GetRangeAlpha_guard
             (F32.of_Z 5) (F32.of_Z 5) (F32.of_Z 5))) eq_refl)).
  - exact (proj2 (proj1 (proj2 (proj2 (GetRangeAlpha_guard
             (F32.of_Z 0) (F32.of_Z 10) (F32.of_Z 15)))) eq_refl)).
Defined.

(** [0 * d] is a zero when [d] is neither infinite nor NaN. *)
Lemma mul_zero_finite (c d : F32.t) :
  F32.eqb c F32.zero = true -> F32.is_finite d = true ->
  exists s, F32.mul c d = S754_zero s.
Proof.
  destruct c as [sc|sc| |sc mc ec]; simpl; intros Hc Hd;
    try discriminate.
  - destruct d as [sd|sd| |sd md ed]; simpl in *; try discriminate;
      eexists; reflexivity.
  - destruct sc; discriminate.
  - destruct sc; discriminate.
Qed.

(** Adding a zero to a finite number leaves a number equal to it. *)
Lemma add_zero_finite (x : F32.t) (s : bool) :
  F32.is_finite x = true ->
  F32.eqb (F32.add x (S754_zero s)) x = true.
Proof.
  destruct x as [sx|sx| |sx m e]; simpl; intros Hf; try discriminate.
  - destruct sx, s; reflexivity.
  - unfold F32.eqb, SFeqb, F32.add, SFadd.
    rewrite (F32Facts.compare_refl (S754_finite sx m e) eq_refl).
    reflexivity.
Qed.

(** A finite difference has finite operands. *)
Lemma sub_finite_operands (x y : F32.t) :
  F32.is_finite (F32.sub x y) = true ->
  F32.is_finite x = true /\ F32.is_finite y = true.
Proof.
  destruct x as [sx|sx| |sx mx ex], y as [sy|sy| |sy my ey]; simpl;
    intros Hf; try discriminate; try (split; reflexivity);
    destruct sx, sy; discriminate.
Qed.

(** At alpha zero the interpolation returns its first end, provided the
    span [B - A] does not overflow. *)
Lemma fLerp_at_zero (A B c : F32.t) :
  F32.eqb c F32.zero = true ->
  F32.is_finite (F32.sub B A) = true ->
  F32.eqb (fLerp A B c) A = true.
Proof.
  intros Hc Hd. unfold fLerp, Lerp_float.
  destruct (mul_zero_finite c (F32.sub B A) Hc Hd) as [s ->].
  apply add_zero_finite.
  apply (sub_finite_operands B A Hd).
Qed.

(** ** Rounding in binary32

    [SpecFloat]'s [binary_round] and [binary_round_aux], followed far
    enough to order the result of an addition against its first
    summand. *)

Lemma digits2_pos_bounds (p : positive) :
  2 ^ (Z.pos (digits2_pos p) - 1) <= Z.pos p < 2 ^ Z.pos (digits2_pos p).
Proof.
  induction p as [p IH|p IH|]; cbn [digits2_pos].
  - rewrite Pos2Z.inj_succ, Z.pow_succ_r by lia.
    replace (Z.succ (Z.pos (digits2_pos p)) - 1)
      with (Z.succ (Z.pos (digits2_pos p) - 1)) by lia.
    rewrite Z.pow_succ_r by lia. lia.
  - rewrite Pos2Z.inj_succ, Z.pow_succ_r by lia.
    replace (Z.succ (Z.pos (digits2_pos p)) - 1)
      with (Z.succ (Z.pos (digits2_pos p) - 1)) by lia.
    rewrite Z.pow_succ_r by lia. lia.
  - simpl. lia.
Qed.

Lemma digits2_pos_unique (p : positive) (d : Z) :
  2 ^ (d - 1) <= Z.pos p < 2 ^ d -> Z.pos (digits2_pos p) = d.
Proof.
  intros [Hlo Hhi]. pose proof (digits2_pos_bounds p) as [Hlo' Hhi'].
  assert (Hd : 0 < d).
  { destruct (Z.lt_trichotomy d 0) as [Hneg|[->|Hpos]]; [| |assumption].
    - rewrite Z.pow_neg_r in Hhi by assumption. lia.
    - simpl in Hhi. lia. }
  destruct (Z.lt_trichotomy (Z.pos (digits2_pos p)) d) as [Hlt|[Heq|Hgt]];
    [|assumption|].
  - assert (2 ^ Z.pos (digits2_pos p) <= 2 ^ (d - 1))
      by (apply Z.pow_le_mono_r; lia). lia.
  - assert (2 ^ d <= 2 ^ (Z.pos (digits2_pos p) - 1))
      by (apply Z.pow_le_mono_r; lia). lia.
Qed.

Lemma pos_iter_xO (k p : positive) :
  Z.pos (Pos.iter xO p k) = Z.pos p * 2 ^ Z.pos k.
Proof.
  revert p. induction k as [|k IH] using Pos.peano_ind; intros p.
  - simpl. lia.
  - rewrite Pos.iter_succ, Pos2Z.inj_succ, Z.pow_succ_r by lia.
    rewrite Pos2Z.inj_xO, IH. lia.
Qed.

Lemma shr_1_m (r : shr_record) :
  0 <= shr_m r -> shr_m (shr_1 r) = shr_m r / 2.
Proof.
  destruct r as [m r s]. cbn [shr_m]. intros Hm.
  destruct m as [|p|p]; [reflexivity| |lia].
  destruct p as [p|p|]; cbn [shr_1 shr_m].
  - rewrite Pos2Z.inj_xI. apply (Z.div_unique _ _ _ 1); lia.
  - rewrite Pos2Z.inj_xO. apply (Z.div_unique _ _ _ 0); lia.
  - reflexivity.
Qed.

Lemma pow2_xI (n : positive) :
  2 ^ Z.pos n~1 = 2 * 2 ^ Z.pos n * 2 ^ Z.pos n.
Proof.
  replace (Z.pos n~1) with (1 + Z.pos n + Z.pos n) by lia.
  rewrite !Z.pow_add_r by lia. reflexivity.
Qed.

Lemma pow2_xO (n : positive) : 2 ^ Z.pos n~0 = 2 ^ Z.pos n * 2 ^ Z.pos n.
Proof.
  replace (Z.pos n~0) with (Z.pos n + Z.pos n) by lia.
  rewrite Z.pow_add_r by lia. reflexivity.
Qed.

Lemma iter_pos_shr_1_m (n : positive) :
  forall r, 0 <= shr_m r ->
    shr_m (iter_pos shr_1 n r) = shr_m r / 2 ^ Z.pos n.
Proof.
  induction n as [n IH|n IH|]; intros r Hr; cbn [iter_pos].
  - assert (H1 : 0 <= shr_m (shr_1 r))
      by (rewrite shr_1_m by assumption; apply Z.div_pos; lia).
    assert (H2 : 0 <= shr_m (iter_pos shr_1 n (shr_1 r)))
      by (rewrite IH by assumption; apply Z.div_pos; lia).
    rewrite IH, IH, shr_1_m by assumption.
    rewrite !Z.div_div by lia. rewrite pow2_xI. f_equal. ring.
  - assert (H2 : 0 <= shr_m (iter_pos shr_1 n r))
      by (rewrite IH by assumption; apply Z.div_pos; lia).
    rewrite IH, IH by assumption.
    rewrite !Z.div_div by lia. rewrite pow2_xO. f_equal.
  - rewrite shr_1_m by assumption. reflexivity.
Qed.

Lemma fexp_value (x : Z) :
  fexp F32.prec F32.emax x = Z.max (x - 24) (-149).
Proof. reflexivity. Qed.

Lemma round_nearest_even_cases (m : Z) (l : location) :
  round_nearest_even m l = m \/ round_nearest_even m l = m + 1.
Proof.
  destruct l as [|[]]; cbn [round_nearest_even]; auto.
  destruct (Z.even m); auto.
Qed.

Lemma shr_record_of_loc_m (m : Z) (l : location) :
  shr_m (shr_record_of_loc m l) = m.
Proof. destruct l as [|[]]; reflexivity. Qed.

(** The first shift of [binary_round_aux]: by [n] places, or none. *)
Lemma shr_fexp_m (p : positive) (ex : Z) (l : location) :
  let n := fexp F32.prec F32.emax (Z.pos (digits2_pos p) + ex) - ex in
  shr_m (fst (shr_fexp F32.prec F32.emax (Z.pos p) ex l))
  = Z.pos p / 2 ^ Z.max n 0
  /\ snd (shr_fexp F32.prec F32.emax (Z.pos p) ex l) = ex + Z.max n 0.
Proof.
  cbv zeta. unfold shr_fexp. cbn [Zdigits2].
  set (n := fexp F32.prec F32.emax (Z.pos (digits2_pos p) + ex) - ex).
  unfold shr. destruct n as [|q|q]; cbn [fst snd].
  - rewrite shr_record_of_loc_m. simpl Z.max. rewrite Z.div_1_r. lia.
  - rewrite iter_pos_shr_1_m by (rewrite shr_record_of_loc_m; lia).
    rewrite shr_record_of_loc_m.
    replace (Z.max (Z.pos q) 0) with (Z.pos q) by lia. split; reflexivity.
  - rewrite shr_record_of_loc_m.
    replace (Z.max (Z.neg q) 0) with 0 by lia. rewrite Z.div_1_r. lia.
Qed.



























(** ** The clamped mapping *)

(** Evaluated without rounding, an alpha in [[0, 1]] keeps the
    interpolation between its ends.  In [float] the lower end
    survives the rounding and the upper end does not, as the theorem
    below and the two lemmas after it show. *)
Lemma Lerp_exact_in_range (A B alpha : Q) :
  (A <= B)%Q -> (0 <= alpha <= 1)%Q ->
  (A <= Lerp_exact A B alpha <= B)%Q.
Proof.
  intros HAB [H0 H1]. unfold Lerp_exact. split; nra.
Qed.



(** Without the clamp the same mapping extrapolates:
    [GetMappedValueUnclamped(0, 10, 0, 100, 15) == 150]. *)
Lemma GetMappedValueUnclamped_extrapolates :
  GetMappedValueUnclamped (F32.of_Z 0) (F32.of_Z 10) (F32.of_Z 0)
    (F32.of_Z 100) (F32.of_Z 15) = F32.of_Z 150.
Proof. reflexivity. Qed.


(** The span can also overflow: between [-2^127] and [2^127] the
    difference is infinite and alpha [0] turns it into NaN. *)
Lemma GetMappedValueClamped_overflow_nan :
  let outMin := S754_finite true 8388608 104 in
  let outMax := S754_finite false 8388608 104 in
  F32.valid outMin = true /\ F32.valid outMax = true
  /\ F32.leb outMin outMax = true
  /\ GetMappedValueClamped (F32.of_Z 0) (F32.of_Z 10)
       outMin outMax (F32.of_Z (-5)) = S754_nan.
Proof. repeat split. Qed.

(** ** Easing at the midpoint *)

Section EasingMidpoint.

Variable pow : F32.t -> F32.t -> F32.t.

(** C99 F.10.4.4: [pow(+1, y)] returns [1] for any [y], even a NaN. *)
Hypothesis pow_one : forall y, pow F32.one y = F32.one.

(** The ease-in arm at [0.5]: [pow(0.5 * 2, exp) = 1], interpolated
    between [0] and [1] and halved. *)
Lemma EaseInHalf_midpoint (exp : F32.t) :
  EaseInHalf pow F32.half exp = F32.half.
Proof.
  unfold EaseInHalf, InterpEaseIn_float.
  change (F32.mul F32.half F32.two) with F32.one.
  rewrite pow_one. reflexivity.
Qed.

(** The ease-out arm at [0.5]: [1 - pow(1 - 0, exp) = 0], interpolated,
    halved and moved up by [0.5]. *)
Lemma EaseOutHalf_midpoint (exp : F32.t) :
  EaseOutHalf pow F32.half exp = F32.half.
Proof.
  unfold EaseOutHalf, InterpEaseOut_float.
  change (F32.sub (F32.mul F32.half F32.two) F32.one) with F32.zero.
  change (F32.sub F32.one F32.zero) with F32.one.
  rewrite pow_one. reflexivity.
Qed.

(** C6.  At [alpha = 0.5] the two arms of [InterpEaseInOut] produce the
    same factor, [0.5], and [InterpEaseInOut(A, B, 0.5, exp)] is the
    interpolation of [A] and [B] at that common factor, whichever arm
    is used and whatever [exp] is. *)
Theorem InterpEaseInOut_midpoint {T : Type} `{Lerpable T}
  (A B : T) (exp : F32.t) :
  EaseInHalf pow F32.half exp = EaseOutHalf pow F32.half exp
  /\ InterpEaseInOut pow A B F32.half exp
     = Lerp A B (EaseInHalf pow F32.half exp)
  /\ InterpEaseInOut pow A B F32.half exp
     = Lerp A B (EaseOutHalf pow F32.half exp)
  /\ InterpEaseInOut pow A B F32.half exp = Lerp A B F32.half.
Proof.
  unfold InterpEaseInOut.
  change (F32.ltb F32.half F32.half) with false. cbv iota.
  rewrite EaseInHalf_midpoint, EaseOutHalf_midpoint.
  repeat split.
Qed.

End EasingMidpoint.

Lemma pow_sample_one (y : F32.t) : pow_sample F32.one y = F32.one.
Proof. reflexivity. Qed.

(** The midpoint between [0] and [100] with exponent [2]. *)
Lemma InterpEaseInOut_midpoint_witness :
  InterpEaseInOut pow_sample (F32.of_Z 0) (F32.of_Z 100) F32.half F32.two
  = Some (F32.of_Z 50).
Proof.
  exact (proj2 (proj2 (proj2
    (InterpEaseInOut_midpoint pow_sample pow_sample_one
       (F32.of_Z 0) (F32.of_Z 100) F32.two)))).
Defined.

(** Without [pow(1, y) = 1] the arms need not meet: were [pow(1, 2)]
    equal to [0] they would give [0] and [1]. *)
Lemma midpoint_needs_pow_one :
  let pow0 (x y : F32.t) := F32.zero in
  EaseInHalf pow0 F32.half F32.two = F32.zero
  /\ EaseOutHalf pow0 F32.half F32.two = F32.one.
Proof. split; reflexivity. Qed.

(** ** [Lerp] at integral types *)

Lemma wrap32_small (z : Z) : 0 <= z < 2 ^ 32 -> wrap32 z = z.
Proof. intros Hz. unfold wrap32. apply Z.mod_small. assumption. Qed.

Lemma wrap32_negative (z : Z) :
  - 2 ^ 32 <= z < 0 -> wrap32 z = z + 2 ^ 32.
Proof.
  intros Hz. unfold wrap32.
  rewrite <- (Z.mod_add z 1 (2 ^ 32)) by lia.
  apply Z.mod_small. lia.
Qed.

Lemma int_result_in_range (z : Z) :
  INT_MIN <= z <= INT_MAX -> int_result z = Some z.
Proof.
  intros [Hlo Hhi]. unfold int_result.
  apply Z.leb_le in Hlo, Hhi. rewrite Hlo, Hhi. reflexivity.
Qed.

(** Where the 32-bit instantiation takes its difference: [B - A] is
    computed in [uint32_t], so it is the exact difference when
    [A <= B] and is [2^32] too large when [B < A]. *)
Lemma Lerp_uint32_difference (A B : Z) (alpha : F32.t) :
  0 <= A < 2 ^ 32 -> 0 <= B < 2 ^ 32 ->
  Lerp_uint32 A B alpha
  = to_unsigned 32
      (F32.add (F32.of_Z A)
         (F32.mul alpha
            (F32.of_Z (if A <=? B then B - A else B - A + 2 ^ 32)))).
Proof.
  intros HA HB. unfold Lerp_uint32.
  destruct (Z.leb_spec A B) as [Hle|Hlt].
  - rewrite wrap32_small by lia. reflexivity.
  - rewrite wrap32_negative by lia. reflexivity.
Qed.

(** C7.  The code does not widen [B - A], and at [T = uint32_t] this is
    a defect: [Lerp<uint32_t>(10, 0, 0.5f)] takes [0 - 10] in
    [uint32_t], where it wraps to [4294967286], and returns
    [2147483648], which is not between [10] and [0].  The difference
    taken without wrap-around, as the documentation describes it, gives
    [5], and so do the instantiations of the same template at
    [uint8_t], [int] and [float] on the same arguments.  At [T = int]
    the difference of [INT_MIN] and [INT_MAX] overflows [int], which is
    undefined. *)
Theorem Lerp_uint32_descending :
  wrap32 (0 - 10) = 4294967286
  /\ Lerp_uint32 10 0 F32.half = Some 2147483648
  /\ Lerp_uint32_widened 10 0 F32.half = Some 5
  /\ Lerp_uint8 10 0 F32.half = Some 5
  /\ Lerp_int 10 0 F32.half = Some 5
  /\ Lerp_float (F32.of_Z 10) (F32.of_Z 0) F32.half = F32.of_Z 5
  /\ Lerp_int INT_MIN INT_MAX F32.half = None.
Proof. repeat split. Qed.

(** ** The mixer *)

Lemma wrap64_range (z : Z) : 0 <= wrap64 z < 2 ^ 64.
Proof. unfold wrap64. apply Z.mod_pos_bound. reflexivity. Qed.

(** Folding the high half onto a 64-bit value keeps it 64-bit. *)
Lemma fold_high_range (x : Z) :
  0 <= x < 2 ^ 64 -> 0 <= Z.lxor (Z.shiftr x 32) x < 2 ^ 64.
Proof.
  intros [Hlo Hhi].
  assert (Hs : 0 <= Z.shiftr x 32) by (apply Z.shiftr_nonneg; assumption).
  assert (Hx : 0 <= Z.lxor (Z.shiftr x 32) x)
    by (apply Z.lxor_nonneg; split; intros; assumption).
  split; [assumption|].
  destruct (Z.eq_dec (Z.lxor (Z.shiftr x 32) x) 0) as [->|Hne];
    [reflexivity|].
  apply Z.log2_lt_pow2; [lia|].
  apply Z.le_lt_trans with (Z.max (Z.log2 (Z.shiftr x 32)) (Z.log2 x)).
  - apply Z.log2_lxor; assumption.
  - assert (Hlx : Z.log2 x < 64).
    { destruct (Z.eq_dec x 0) as [->|Hx0]; [reflexivity|].
      apply Z.log2_lt_pow2; lia. }
    assert (Hls : Z.log2 (Z.shiftr x 32) <= Z.log2 x).
    { apply Z.log2_le_mono. rewrite Z.shiftr_div_pow2 by lia.
      apply Z.div_le_upper_bound; [reflexivity|].
      change (2 ^ 32) with 4294967296. lia. }
    lia.
Qed.

(** One round of the code is one round of the reference, whatever its
    input was reduced by. *)
Lemma round_is_mix_round (c x : Z) :
  let tmp := wrap64 (wrap64 x * c) in
  Z.lxor (Z.shiftr tmp 32) tmp = mix_round c x.
Proof.
  cbv zeta. unfold mix_round, wrap64.
  change (2 ^ 64) with 18446744073709551616.
  rewrite Z.mul_mod_idemp_l by discriminate.
  rewrite Z.shiftr_div_pow2 by discriminate.
  reflexivity.
Qed.

(** C2.  For every 64-bit [seed], [LehmerInt64(seed)] is the value of
    the reference algorithm (add [0xe120fc15], multiply by [0x4a39b70d]
    modulo [2^64], XOR the product shifted right by 32 with the
    product, multiply by [0x12fad5c9] modulo [2^64], XOR again in the
    same way); the result is a 64-bit value, and equal seeds give equal
    results. *)
Theorem LehmerInt64_is_reference (seed : Z) :
  0 <= seed < 2 ^ 64 ->
  LehmerInt64 seed = mix_reference seed
  /\ 0 <= LehmerInt64 seed < 2 ^ 64
  /\ (forall seed', seed' = seed -> LehmerInt64 seed' = LehmerInt64 seed).
Proof.
  intros Hseed. split; [|split].
  - unfold LehmerInt64, mix_reference. cbv zeta.
    rewrite (round_is_mix_round 0x4a39b70d (seed + 0xe120fc15)).
    set (m1 := mix_round 1245296397 (seed + 3777035285)).
    assert (Hm1 : wrap64 m1 = m1).
    { unfold wrap64. apply Z.mod_small. unfold m1, mix_round.
      change 4294967296 with (2 ^ 32).
      rewrite <- Z.shiftr_div_pow2 by discriminate.
      apply fold_high_range.
      apply (Z.mod_pos_bound _ 18446744073709551616). reflexivity. }
    rewrite <- Hm1 at 1 2.
    apply (round_is_mix_round 0x12fad5c9 m1).
  - unfold LehmerInt64. cbv zeta.
    apply fold_high_range, wrap64_range.
  - intros seed' ->. reflexivity.
Qed.

(** Known answers, among them both ends of the seed range. *)
Lemma LehmerInt64_is_reference_witness :
  mix_reference 1 = 10623002060555559689
  /\ mix_reference UINT64_MAX = 9830092019413062495.
Proof.
  split.
  - destruct (LehmerInt64_is_reference 1) as [H _];
      [split; [discriminate | reflexivity]|].
    rewrite <- H. reflexivity.
  - destruct (LehmerInt64_is_reference UINT64_MAX) as [H _];
      [split; [discriminate | reflexivity]|].
    rewrite <- H. reflexivity.
Defined.

(** ** The hidden counters *)

Lemma EntryPoint_eqb_eq (a b : EntryPoint) :
  EntryPoint_eqb a b = true <-> a = b.
Proof. destruct a, b; simpl; split; intros; congruence. Qed.

Lemma EntryPoint_eqb_refl (a : EntryPoint) : EntryPoint_eqb a a = true.
Proof. destruct a; reflexivity. Qed.

(** What one call does to the world: the counter of the overload called
    advances by one, the other two stay, and one query is logged, with
    the advanced counter as the seed. *)
Lemma call_effect (e : EntryPoint) (w : World) :
  counter e (call e w) = wrap64 (counter e w + 1)
  /\ (forall e', e' <> e -> counter e' (call e w) = counter e' w)
  /\ mixed (call e w) = (e, wrap64 (counter e w + 1)) :: mixed w.
Proof.
  destruct e; (split; [reflexivity|split; [|reflexivity]]);
    intros [] Hne; try reflexivity; contradiction Hne; reflexivity.
Qed.

Lemma seeds_of_call_same (e : EntryPoint) (w : World) :
  seeds_of e (call e w) = seeds_of e w ++ [wrap64 (counter e w + 1)].
Proof.
  unfold seeds_of. destruct (call_effect e w) as (_ & _ & ->).
  simpl. rewrite EntryPoint_eqb_refl. reflexivity.
Qed.

Lemma seeds_of_call_other (e e' : EntryPoint) (w : World) :
  e <> e' -> seeds_of e (call e' w) = seeds_of e w.
Proof.
  intros Hne. unfold seeds_of. destruct (call_effect e' w) as (_ & _ & ->).
  simpl. destruct (EntryPoint_eqb e e') eqn:E; [|reflexivity].
  apply EntryPoint_eqb_eq in E. contradiction.
Qed.

Lemma run_snoc (calls : list EntryPoint) (e : EntryPoint) (w : World) :
  run (calls ++ [e]) w = call e (run calls w).
Proof. unfold run. rewrite fold_left_app. reflexivity. Qed.

Lemma calls_to_snoc (e e' : EntryPoint) (calls : list EntryPoint) :
  calls_to e (calls ++ [e'])
  = (calls_to e calls + (if EntryPoint_eqb e e' then 1 else 0))%nat.
Proof.
  unfold calls_to. rewrite filter_app, length_app. simpl.
  destruct (EntryPoint_eqb e e'); reflexivity.
Qed.

Lemma wrap64_succ (z : Z) : wrap64 (wrap64 z + 1) = wrap64 (z + 1).
Proof. unfold wrap64. apply Z.add_mod_idemp_l. discriminate. Qed.

(** The state after any sequence of calls, wrap-around included. *)
Lemma run_counters (calls : list EntryPoint) (e : EntryPoint) :
  counter e (run calls initial) = seed_number (calls_to e calls)
  /\ seeds_of e (run calls initial)
     = map seed_number (seq 1 (calls_to e calls)).
Proof.
  induction calls as [|e' calls IH] using rev_ind.
  - destruct e; split; reflexivity.
  - destruct IH as [IHc IHs].
    rewrite run_snoc, calls_to_snoc.
    destruct (EntryPoint_eqb e e') eqn:E.
    + apply EntryPoint_eqb_eq in E. subst e'.
      destruct (call_effect e (run calls initial)) as (Hc & _ & _).
      rewrite Nat.add_1_r.
      assert (Hnext : wrap64 (counter e (run calls initial) + 1)
                      = seed_number (S (calls_to e calls))).
      { rewrite IHc. unfold seed_number. rewrite wrap64_succ.
        f_equal. lia. }
      split.
      * rewrite Hc. exact Hnext.
      * rewrite seeds_of_call_same, IHs, Hnext.
        rewrite seq_S, map_app. reflexivity.
    + assert (Hne : e <> e').
      { intros Heq. apply EntryPoint_eqb_eq in Heq. congruence. }
      rewrite Nat.add_0_r. split.
      * destruct (call_effect e' (run calls initial)) as (_ & Ho & _).
        rewrite (Ho e Hne). exact IHc.
      * rewrite (seeds_of_call_other e e' _ Hne). exact IHs.
Qed.

Lemma seed_number_small (k : nat) :
  Z.of_nat k < 2 ^ 64 -> seed_number k = Z.of_nat k.
Proof.
  intros Hk. unfold seed_number, wrap64. apply Z.mod_small. lia.
Qed.

Lemma map_seed_number_small (n : nat) :
  Z.of_nat n < 2 ^ 64 ->
  map seed_number (seq 1 n) = map Z.of_nat (seq 1 n).
Proof.
  intros Hn. apply map_ext_in. intros k Hk.
  apply in_seq in Hk. apply seed_number_small. lia.
Qed.

Lemma NoDup_map_of_nat (l : list nat) : NoDup l -> NoDup (map Z.of_nat l).
Proof.
  induction 1 as [|x l Hx Hl IH]; simpl; constructor; [|assumption].
  intros Hin. apply in_map_iff in Hin. destruct Hin as (y & Hy & Hin).
  apply Nat2Z.inj in Hy. subst y. contradiction.
Qed.

(** The counter comes back after exactly [2^64] calls: the bound in the
    theorem below is the best possible. *)
Lemma seed_number_period (k : nat) :
  seed_number (k + Z.to_nat (2 ^ 64)) = seed_number k.
Proof.
  unfold seed_number, wrap64. rewrite Nat2Z.inj_add, Z2Nat.id by discriminate.
  rewrite <- (Z.mod_add (Z.of_nat k) 1 (2 ^ 64)) by discriminate.
  rewrite Z.mul_1_l. reflexivity.
Qed.

(** C4.  Each overload without a seed has a counter of its own that
    starts at [0], is advanced by one by every call of that overload
    and by no call of another one, and is passed, advanced, to
    [LehmerInt64(seed)].  In a process that calls the overloads in any
    order, with fewer than [2^64] calls to the overload [e], the seeds
    [e] hands to the mixer are [1, 2, ..., k]: no value repeats.  Two
    calls in a row always use different seeds. *)
Theorem noseed_seeds_distinct (calls : list EntryPoint) (e : EntryPoint) :
  Z.of_nat (calls_to e calls) < 2 ^ 64 ->
  counter e initial = 0
  /\ (forall w,
        counter e (call e w) = wrap64 (counter e w + 1)
        /\ (forall e', e' <> e -> counter e' (call e w) = counter e' w)
        /\ mixed (call e w) = (e, counter e (call e w)) :: mixed w)
  /\ counter e (run calls initial) = Z.of_nat (calls_to e calls)
  /\ seeds_of e (run calls initial)
     = map Z.of_nat (seq 1 (calls_to e calls))
  /\ NoDup (seeds_of e (run calls initial))
  /\ (forall w,
        counter e (call e (call e w)) <> counter e (call e w)).
Proof.
  intros Hk. destruct (run_counters calls e) as [Hc Hs].
  split; [destruct e; reflexivity|]. split; [|split; [|split; [|split]]].
  - intros w. destruct (call_effect e w) as (H1 & H2 & H3).
    repeat split; try assumption. rewrite H3, H1. reflexivity.
  - rewrite Hc. apply seed_number_small. assumption.
  - rewrite Hs. apply map_seed_number_small. assumption.
  - rewrite Hs, (map_seed_number_small _ Hk).
    apply NoDup_map_of_nat, seq_NoDup.
  - intros w.
    destruct (call_effect e (call e w)) as (-> & _ & _).
    pose proof (wrap64_range (counter e w + 1)) as Hr.
    destruct (call_effect e w) as (-> & _ & _).
    set (s := wrap64 (counter e w + 1)) in *.
    unfold wrap64 at 1.
    destruct (Z.eq_dec s (2 ^ 64 - 1)) as [->|Hne].
    + discriminate.
    + rewrite Z.mod_small by lia. lia.
Qed.

(** Two calls of [LehmerFloat()] around one of [LehmerInt64()]: the
    float overload has used the seeds [1] and [2]. *)
Lemma noseed_seeds_distinct_witness :
  seeds_of NoSeedFloat
    (run [NoSeedFloat; NoSeedInt64; NoSeedFloat] initial) = [1; 2].
Proof.
  destruct (noseed_seeds_distinct
              [NoSeedFloat; NoSeedInt64; NoSeedFloat] NoSeedFloat)
    as (_ & _ & _ & H & _); [reflexivity|].
  exact H.
Defined.

(** ** Bit reversal *)

Lemma in_bytes (b : Z) : 0 <= b < 256 -> In b bytes.
Proof.
  intros Hb. unfold bytes. apply in_map_iff.
  exists (Z.to_nat b). split; [lia|]. apply in_seq. lia.
Qed.

Lemma all_bytes_checked : forallb stages_checked bytes = true.
Proof. vm_compute. reflexivity. Qed.

Lemma byte_checked (b : Z) : 0 <= b < 256 -> stages_checked b = true.
Proof.
  intros Hb. pose proof all_bytes_checked as H.
  rewrite forallb_forall in H. apply H, in_bytes, Hb.
Qed.

Lemma low_byte_land (a mask : Z) :
  0 <= mask < 256 -> Z.land a mask = Z.land (a mod 256) mask.
Proof.
  intros Hm. change 256 with (2 ^ 8).
  rewrite <- Z.land_ones by discriminate.
  rewrite <- Z.land_assoc. f_equal.
  change (Z.ones 8) with 255.
  apply Z.bits_inj'. intros n Hn.
  rewrite Z.land_spec.
  destruct (Z.ltb_spec n 8) as [Hlt|Hge].
  - change 255 with (Z.ones 8).
    rewrite Z.ones_spec_low by lia. reflexivity.
  - rewrite (Z.bits_above_log2 mask n); [|lia|].
    + rewrite andb_false_r. reflexivity.
    + destruct (Z.eq_dec mask 0) as [->|Hne]; [simpl; lia|].
      apply Z.lt_le_trans with 8; [|assumption].
      apply Z.log2_lt_pow2; lia.
Qed.

(** Every stage reads the low byte of its input only. *)
Lemma swap_stage_low_byte (k hi lo a : Z) :
  0 <= hi < 256 -> 0 <= lo < 256 ->
  swap_stage k hi lo a = swap_stage k hi lo (a mod 256).
Proof.
  intros Hhi Hlo. unfold swap_stage.
  rewrite (low_byte_land a hi Hhi), (low_byte_land a lo Hlo).
  reflexivity.
Qed.

Lemma reverseBits_low_byte_only (a : Z) :
  reverseBits a = reverseBits (a mod 256).
Proof.
  unfold reverseBits.
  rewrite (swap_stage_low_byte 4 0xF0 0x0F a) by (split; [discriminate|reflexivity]).
  reflexivity.
Qed.

Lemma in_first_eight (i : Z) :
  0 <= i < 8 -> In i [0; 1; 2; 3; 4; 5; 6; 7].
Proof. intros Hi. simpl. lia. Qed.

(** C8.  For every 32-bit [a], [reverseBits(a)] is the low byte of [a]
    with its eight bits in reverse order, and nothing else: bit [i] of
    the result is bit [7 - i] of [a] for [i < 8] and is clear above.
    It is reached in three stages that stay within the low byte: the
    first swaps the nibbles (bit [i] comes from [i xor 4]), the second
    the pairs of bits within a nibble ([i xor 2]), the third the
    neighbours ([i xor 1]).  [reverseBits(0b11010010) == 0b01001011]. *)
Theorem reverseBits_reverses_low_byte (a : Z) :
  0 <= a < 2 ^ 32 ->
  let s1 := swap_stage 4 0xF0 0x0F a in
  let s2 := swap_stage 2 0xCC 0x33 s1 in
  let s3 := swap_stage 1 0xAA 0x55 s2 in
  reverseBits a = s3
  /\ reverseBits a = bit_reversed_byte (a mod 256)
  /\ 0 <= reverseBits a < 256
  /\ (forall i, 0 <= i ->
        Z.testbit (reverseBits a) i
        = if i <? 8 then Z.testbit a (7 - i) else false)
  /\ (forall i, 0 <= i < 8 ->
        Z.testbit s1 i = Z.testbit a (Z.lxor i 4)
        /\ Z.testbit s2 i = Z.testbit s1 (Z.lxor i 2)
        /\ Z.testbit s3 i = Z.testbit s2 (Z.lxor i 1))
  /\ reverseBits 210 = 75.
Proof.
  intros Ha s1 s2 s3.
  assert (Hb : 0 <= a mod 256 < 256) by (apply Z.mod_pos_bound; reflexivity).
  pose proof (byte_checked (a mod 256) Hb) as Hc.
  unfold stages_checked in Hc.
  rewrite <- (reverseBits_low_byte_only a) in Hc.
  rewrite <- (swap_stage_low_byte 4 0xF0 0x0F a) in Hc
    by (split; [discriminate|reflexivity]).
  fold s1 in Hc. fold s2 in Hc. fold s3 in Hc.
  repeat rewrite andb_true_iff in Hc.
  destruct Hc as [[[[H1 H2] H3] Hrev] Hbits].
  apply Z.ltb_lt in H1, H2, H3. apply Z.eqb_eq in Hrev.
  rewrite forallb_forall in Hbits.
  assert (Hs3 : 0 <= s3).
  { unfold s3, swap_stage, wrap32. apply Z.mod_pos_bound. reflexivity. }
  assert (Hlow : forall i, 0 <= i < 8 ->
            Z.testbit a (Z.lxor i 4) = Z.testbit (a mod 256) (Z.lxor i 4)
            /\ Z.testbit a (7 - i) = Z.testbit (a mod 256) (7 - i)).
  { intros i Hi. change 256 with (2 ^ 8).
    assert (Hx : 0 <= Z.lxor i 4 < 8).
    { assert (Hcases : i = 0 \/ i = 1 \/ i = 2 \/ i = 3 \/ i = 4
                       \/ i = 5 \/ i = 6 \/ i = 7) by lia.
      destruct Hcases as [->|[->|[->|[->|[->|[->|[->| ->]]]]]]];
        split; (discriminate || reflexivity). }
    rewrite !Z.mod_pow2_bits_low by lia. split; reflexivity. }
  split; [reflexivity|]. split; [exact Hrev|].
  split; [split; [exact Hs3 | exact H3]|].
  split; [|split; [|reflexivity]].
  - intros i Hi. change (reverseBits a) with s3.
    destruct (Z.ltb_spec i 8) as [Hlt|Hge].
    + specialize (Hbits i (in_first_eight i (conj Hi Hlt))).
      repeat rewrite andb_true_iff in Hbits.
      destruct Hbits as [_ H7]. apply eqb_prop in H7.
      rewrite H7. symmetry. apply (Hlow i (conj Hi Hlt)).
    + destruct (Z.eq_dec s3 0) as [->|Hne]; [apply Z.testbit_0_l|].
      apply Z.bits_above_log2; [assumption|].
      apply Z.lt_le_trans with 8; [|assumption].
      apply Z.log2_lt_pow2; lia.
  - intros i Hi. specialize (Hbits i (in_first_eight i Hi)).
    repeat rewrite andb_true_iff in Hbits.
    destruct Hbits as [[[Hb1 Hb2] Hb3] _].
    apply eqb_prop in Hb1, Hb2, Hb3.
    rewrite Hb1, Hb2, Hb3. repeat split.
    symmetry. apply (Hlow i Hi).
Qed.

(** A word with all the upper bytes set and the low byte [0x01]. *)
Lemma reverseBits_reverses_low_byte_witness :
  reverseBits 0xFFFFFF01 = 128
  /\ bit_reversed_byte (0xFFFFFF01 mod 256) = 128.
Proof.
  destruct (reverseBits_reverses_low_byte 0xFFFFFF01) as (_ & H & _);
    [split; [discriminate | reflexivity]|].
  split; [reflexivity|]. rewrite <- H. reflexivity.
Defined.

(** ** Searching for the n-th occurrence *)

Section FindProperties.

Context {T : Type}.
Variable equal : T -> T -> bool.
Variable a : T.
Variable nth : Z.

Lemma occurrences_nonneg (l : list T) : 0 <= occurrences equal a l.
Proof. unfold occurrences. lia. Qed.

Lemma occurrences_cons (x : T) (l : list T) :
  occurrences equal a (x :: l)
  = (if equal a x then 1 else 0) + occurrences equal a l.
Proof.
  unfold occurrences. simpl. destruct (equal a x); simpl length; lia.
Qed.

Lemma occurrences_le_length (l : list T) :
  occurrences equal a l <= Z.of_nat (length l).
Proof.
  unfold occurrences. pose proof (filter_length_le (equal a) l). lia.
Qed.

Lemma loop_invariant_step (x : T) (rest : list T) (i iteration : Z) :
  loop_invariant (x :: rest) i iteration ->
  int_result (i + 1) = Some (i + 1)
  /\ int_result (iteration + 1) = Some (iteration + 1)
  /\ loop_invariant rest (i + 1) iteration
  /\ loop_invariant rest (i + 1) (iteration + 1).
Proof.
  unfold loop_invariant. simpl length. intros (Hi & Hit & Hlen).
  rewrite Nat2Z.inj_succ in Hlen.
  repeat split; try lia;
    apply int_result_in_range; unfold INT_MIN, INT_MAX in *; lia.
Qed.

(** The loop finds the occurrence that is still [nth - iteration]
    occurrences ahead, if there is one. *)
Lemma loop_finds (rest : list T) :
  forall i iteration,
    loop_invariant rest i iteration ->
    iteration <= nth ->
    nth - iteration < occurrences equal a rest ->
    exists (j : nat) (x : T),
      findInVector_nth_from equal a rest nth i iteration
      = Some (i + Z.of_nat j)
      /\ nth_error rest j = Some x
      /\ equal a x = true
      /\ occurrences equal a (firstn j rest) = nth - iteration.
Proof.
  induction rest as [|x rest IH]; intros i iteration Hinv Hle Hocc.
  - unfold occurrences in Hocc. simpl in Hocc. lia.
  - destruct (loop_invariant_step x rest i iteration Hinv)
      as (Hi & Hit & Hinv1 & Hinv2).
    rewrite occurrences_cons in Hocc. simpl.
    destruct (equal a x) eqn:E.
    + destruct (Z.eqb_spec iteration nth) as [Heq|Hne].
      * exists 0%nat, x. repeat split; try assumption.
        -- f_equal. lia.
        -- unfold occurrences. simpl. lia.
      * rewrite Hit, Hi.
        destruct (IH (i + 1) (iteration + 1) Hinv2) as (j & y & Hr & Hn & Hy & Hc);
          try lia.
        exists (S j), y. repeat split; try assumption.
        -- rewrite Hr. f_equal. lia.
        -- simpl firstn. rewrite occurrences_cons, E, Hc. lia.
    + rewrite Hi.
      destruct (IH (i + 1) iteration Hinv1) as (j & y & Hr & Hn & Hy & Hc);
        try lia.
      exists (S j), y. repeat split; try assumption.
      * rewrite Hr. f_equal. lia.
      * simpl firstn. rewrite occurrences_cons, E, Hc. lia.
Qed.

(** It runs off the end when too few occurrences are left, and also
    when [iteration] is already past [nth]. *)
Lemma loop_misses (rest : list T) :
  forall i iteration,
    loop_invariant rest i iteration ->
    nth < iteration \/ occurrences equal a rest <= nth - iteration ->
    findInVector_nth_from equal a rest nth i iteration = Some (-1).
Proof.
  induction rest as [|x rest IH]; intros i iteration Hinv Hocc.
  - reflexivity.
  - destruct (loop_invariant_step x rest i iteration Hinv)
      as (Hi & Hit & Hinv1 & Hinv2).
    rewrite occurrences_cons in Hocc. simpl.
    pose proof (occurrences_nonneg rest) as Hnn.
    destruct (equal a x) eqn:E.
    + destruct (Z.eqb_spec iteration nth) as [Heq|Hne]; [lia|].
      rewrite Hit, Hi. apply IH; [assumption|lia].
    + rewrite Hi. apply IH; [assumption|lia].
Qed.

Lemma loop_invariant_initially (vect : list T) :
  Z.of_nat (length vect) < INT_MAX -> loop_invariant vect 0 1.
Proof. unfold loop_invariant. lia. Qed.

End FindProperties.

(** With [nth = 1] the search is the search for the first occurrence. *)
Lemma findInVector_from_is_first {T : Type} (equal : T -> T -> bool)
  (a : T) (rest : list T) :
  forall i,
    findInVector_nth_from equal a rest 1 i 1 = findInVector_from equal a rest i.
Proof.
  induction rest as [|x rest IH]; intros i; simpl; [reflexivity|].
  destruct (equal a x); [reflexivity|].
  destruct (int_result (i + 1)); [apply IH | reflexivity].
Qed.

Lemma findInVector_known_answers :
  findInVector Z.eqb 3 [1; 2; 3; 4; 3] = Some 2
  /\ findInVector Z.eqb 9 [1; 2; 3] = Some (-1).
Proof. split; reflexivity. Qed.

(** ** The search at the limits of [int]

    The loop again, now with the exact conditions under which neither
    [int i] nor [int iteration] is incremented past [INT_MAX]. *)

Section FindBounds.

Context {T : Type}.
Variable equal : T -> T -> bool.
Variable a : T.
Variable nth : Z.

(** The loop returns the index of the occurrence that is still
    [nth - iteration] occurrences ahead, whenever that index is an
    [int]: neither counter is incremented beyond it. *)
Lemma loop_finds_at (rest : list T) :
  forall i iteration (j : nat) (x : T),
    0 <= i -> 1 <= iteration -> nth <= INT_MAX ->
    nth_error rest j = Some x ->
    equal a x = true ->
    occurrences equal a (firstn j rest) = nth - iteration ->
    i + Z.of_nat j <= INT_MAX ->
    findInVector_nth_from equal a rest nth i iteration
    = Some (i + Z.of_nat j).
Proof.
  induction rest as [|y rest IH]; intros i iteration j x Hi Hit Hn Hj Hx Hc Hmax.
  - destruct j; discriminate.
  - destruct j as [|j].
    + injection Hj as ->. cbn [findInVector_nth_from]. rewrite Hx.
      unfold occurrences in Hc. cbn in Hc.
      replace (iteration =? nth) with true by (symmetry; apply Z.eqb_eq; lia).
      f_equal. lia.
    + cbn [nth_error] in Hj. cbn [firstn] in Hc.
      rewrite occurrences_cons in Hc.
      pose proof (occurrences_nonneg equal a (firstn j rest)) as Hnn.
      rewrite Nat2Z.inj_succ in Hmax.
      cbn [findInVector_nth_from].
      rewrite (int_result_in_range (i + 1))
        by (unfold INT_MIN, INT_MAX in *; lia).
      destruct (equal a y).
      * replace (iteration =? nth) with false
          by (symmetry; apply Z.eqb_neq; lia).
        rewrite (int_result_in_range (iteration + 1))
          by (unfold INT_MIN, INT_MAX in *; lia).
        rewrite (IH (i + 1) (iteration + 1) j x) by (assumption || lia).
        f_equal. lia.
      * rewrite (IH (i + 1) iteration j x) by (assumption || lia).
        f_equal. lia.
Qed.

(** It runs off the end when too few occurrences are left, or when
    [iteration] is already past [nth], provided the vector ends at an
    index that is an [int] and [iteration] can count what is left. *)
Lemma loop_misses_within (rest : list T) :
  forall i iteration,
    0 <= i -> 1 <= iteration ->
    i + Z.of_nat (length rest) <= INT_MAX ->
    iteration + occurrences equal a rest <= INT_MAX ->
    nth < iteration \/ occurrences equal a rest <= nth - iteration ->
    findInVector_nth_from equal a rest nth i iteration = Some (-1).
Proof.
  induction rest as [|y rest IH]; intros i iteration Hi Hit Hlen Hcnt Hocc.
  - reflexivity.
  - cbn [length] in Hlen. rewrite Nat2Z.inj_succ in Hlen.
    rewrite occurrences_cons in Hcnt, Hocc.
    pose proof (occurrences_nonneg equal a rest) as Hnn.
    cbn [findInVector_nth_from].
    rewrite (int_result_in_range (i + 1))
      by (unfold INT_MIN, INT_MAX in *; lia).
    destruct (equal a y).
    + replace (iteration =? nth) with false
        by (symmetry; apply Z.eqb_neq; lia).
      rewrite (int_result_in_range (iteration + 1))
        by (unfold INT_MIN, INT_MAX in *; lia).
      apply IH; lia.
    + apply IH; lia.
Qed.

(** Among more than [k] occurrences there is one with exactly [k]
    before it. *)
Lemma occurrence_exists (l : list T) :
  forall k, 0 <= k < occurrences equal a l ->
    exists (j : nat) (x : T),
      nth_error l j = Some x
      /\ equal a x = true
      /\ occurrences equal a (firstn j l) = k.
Proof.
  induction l as [|y l IH]; intros k Hk.
  - unfold occurrences in Hk. cbn in Hk. lia.
  - rewrite occurrences_cons in Hk.
    destruct (equal a y) eqn:E.
    + destruct (Z.eq_dec k 0) as [->|Hk0].
      * exists 0%nat, y. repeat split; assumption.
      * destruct (IH (k - 1)) as (j & x & Hj & Hx & Hc); [lia|].
        exists (S j), x. repeat split; try assumption.
        cbn [firstn]. rewrite occurrences_cons, E, Hc. lia.
    + destruct (IH k) as (j & x & Hj & Hx & Hc); [lia|].
      exists (S j), x. repeat split; try assumption.
      cbn [firstn]. rewrite occurrences_cons, E, Hc. lia.
Qed.

End FindBounds.

(** An [int] operation whose exact value is past [INT_MAX] has no
    defined result. *)
Lemma int_result_overflow (z : Z) : INT_MAX < z -> int_result z = None.
Proof.
  intros Hz. unfold int_result.
  destruct (Z.leb_spec z INT_MAX) as [Hle|Hgt]; [lia|].
  rewrite andb_false_r. reflexivity.
Qed.

Lemma occurrences_repeat {T : Type} (equal : T -> T -> bool) (a b : T)
  (n : nat) :
  occurrences equal a (repeat b n) = if equal a b then Z.of_nat n else 0.
Proof.
  induction n as [|n IH].
  - destruct (equal a b); reflexivity.
  - cbn [repeat]. rewrite occurrences_cons, IH.
    destruct (equal a b); lia.
Qed.

(** On a vector none of whose elements is equal to [a], only [i]
    counts: the loop ends with [-1] if it stays an [int]. *)
Lemma findInVector_nth_from_none_equal {T : Type} (equal : T -> T -> bool)
  (a b : T) (nth : Z) (n : nat) :
  equal a b = false ->
  forall i iteration,
    0 <= i <= INT_MAX ->
    findInVector_nth_from equal a (repeat b n) nth i iteration
    = if i + Z.of_nat n <=? INT_MAX then Some (-1) else None.
Proof.
  intros Hne. induction n as [|n IH]; intros i iteration Hi.
  - cbn [repeat findInVector_nth_from].
    destruct (Z.leb_spec (i + Z.of_nat 0) INT_MAX) as [Hle|Hgt];
      [reflexivity | lia].
  - cbn [repeat findInVector_nth_from]. rewrite Hne.
    rewrite Nat2Z.inj_succ.
    destruct (Z.leb_spec (i + 1) INT_MAX) as [Hle|Hgt].
    + rewrite int_result_in_range by (unfold INT_MIN, INT_MAX in *; lia).
      rewrite IH by lia.
      replace (i + 1 + Z.of_nat n) with (i + Z.succ (Z.of_nat n)) by lia.
      reflexivity.
    + rewrite int_result_overflow by assumption.
      destruct (Z.leb_spec (i + Z.succ (Z.of_nat n)) INT_MAX); [lia|].
      reflexivity.
Qed.

(** On a vector all of whose elements are equal to [a], with [nth]
    already behind [iteration], both counters count every element. *)
Lemma findInVector_nth_from_all_equal {T : Type} (equal : T -> T -> bool)
  (a b : T) (nth : Z) (n : nat) :
  equal a b = true ->
  forall i iteration,
    0 <= i <= INT_MAX -> nth < iteration -> 1 <= iteration <= INT_MAX ->
    findInVector_nth_from equal a (repeat b n) nth i iteration
    = if (iteration + Z.of_nat n <=? INT_MAX) && (i + Z.of_nat n <=? INT_MAX)
      then Some (-1) else None.
Proof.
  intros He. induction n as [|n IH]; intros i iteration Hi Hn Hit.
  - cbn [repeat findInVector_nth_from].
    destruct (Z.leb_spec (iteration + Z.of_nat 0) INT_MAX);
      destruct (Z.leb_spec (i + Z.of_nat 0) INT_MAX); try lia.
    reflexivity.
  - cbn [repeat findInVector_nth_from]. rewrite He.
    replace (iteration =? nth) with false by (symmetry; apply Z.eqb_neq; lia).
    rewrite Nat2Z.inj_succ.
    destruct (Z.leb_spec (iteration + 1) INT_MAX) as [Hle|Hgt].
    + rewrite (int_result_in_range (iteration + 1))
        by (unfold INT_MIN, INT_MAX in *; lia).
      destruct (Z.leb_spec (i + 1) INT_MAX) as [Hle2|Hgt2].
      * rewrite (int_result_in_range (i + 1))
          by (unfold INT_MIN, INT_MAX in *; lia).
        rewrite IH by lia.
        replace (iteration + 1 + Z.of_nat n)
          with (iteration + Z.succ (Z.of_nat n)) by lia.
        replace (i + 1 + Z.of_nat n) with (i + Z.succ (Z.of_nat n)) by lia.
        reflexivity.
      * rewrite (int_result_overflow (i + 1)) by assumption.
        destruct (Z.leb_spec (i + Z.succ (Z.of_nat n)) INT_MAX); [lia|].
        rewrite andb_false_r. reflexivity.
    + rewrite (int_result_overflow (iteration + 1)) by assumption.
      destruct (Z.leb_spec (iteration + Z.succ (Z.of_nat n)) INT_MAX); [lia|].
      reflexivity.
Qed.

(** C9 (amended).  For [1 <= n <= INT_MAX] (the positive values of
    [int nth]): when [vect] has at least [n] elements equal to [a]
    there is an [n]-th one, at some index [j] (element [j] is equal to
    [a] and exactly [n - 1] elements before it are); whenever that
    index is at most [INT_MAX], [findInVector(a, vect, n)] returns it;
    and when [vect] has fewer than [n] such elements and at most
    [INT_MAX] elements in all, the function returns [-1].
    [findInVector(3, {1,2,3,4,3}, 2) == 4]. *)
Theorem findInVector_nth_occurrence {T : Type} (equal : T -> T -> bool)
  (a : T) (vect : list T) (n : Z) :
  1 <= n <= INT_MAX ->
  (n <= occurrences equal a vect ->
   exists (j : nat) (x : T),
     nth_error vect j = Some x
     /\ equal a x = true
     /\ occurrences equal a (firstn j vect) = n - 1)
  /\ (forall (j : nat) (x : T),
        nth_error vect j = Some x ->
        equal a x = true ->
        occurrences equal a (firstn j vect) = n - 1 ->
        Z.of_nat j <= INT_MAX ->
        findInVector_nth equal a vect n = Some (Z.of_nat j))
  /\ (occurrences equal a vect < n ->
      Z.of_nat (length vect) <= INT_MAX ->
      findInVector_nth equal a vect n = Some (-1))
  /\ findInVector_nth Z.eqb 3 [1; 2; 3; 4; 3] 2 = Some 4.
Proof.
  intros [Hn1 Hn2].
  split; [|split; [|split; [|reflexivity]]].
  - intros Hocc. apply occurrence_exists. lia.
  - intros j x Hj Hx Hc Hmax. unfold findInVector_nth. cbv zeta.
    rewrite (loop_finds_at equal a n vect 0 1 j x) by (assumption || lia).
    reflexivity.
  - intros Hocc Hlen. unfold findInVector_nth. cbv zeta.
    apply loop_misses_within; lia.
Qed.

(** The third of three occurrences is found, a fourth is not. *)
Lemma findInVector_nth_occurrence_witness :
  findInVector_nth Z.eqb 7 [7; 1; 7; 7; 2] 3 = Some 3
  /\ findInVector_nth Z.eqb 7 [7; 1; 7; 7; 2] 4 = Some (-1).
Proof.
  split.
  - apply (proj1 (proj2 (findInVector_nth_occurrence Z.eqb 7 [7; 1; 7; 7; 2] 3
                            ltac:(split; discriminate))) 3%nat 7);
      [reflexivity | reflexivity | reflexivity | discriminate].
  - apply (findInVector_nth_occurrence Z.eqb 7 [7; 1; 7; 7; 2] 4
             ltac:(split; discriminate));
      [reflexivity | discriminate].
Defined.

(** C9 as stated fails on a long vector.  On [INT_MAX + 1 = 2^31]
    zeros the target [1] does not occur, so fewer than [n = 1]
    occurrences exist; the loop visits every element, and after the
    last one [i++] takes [int i] past [INT_MAX], which is undefined:
    no [-1] is returned. *)
Lemma findInVector_nth_index_overflows :
  Z.of_nat (length long_vector) = INT_MAX + 1
  /\ occurrences Z.eqb 1 long_vector = 0
  /\ findInVector_nth Z.eqb 1 long_vector 1 = None.
Proof.
  unfold long_vector. split; [|split].
  - rewrite repeat_length. apply Z2Nat.id. discriminate.
  - rewrite occurrences_repeat. reflexivity.
  - unfold findInVector_nth. cbv zeta.
    rewrite findInVector_nth_from_none_equal
      by (reflexivity || (split; discriminate)).
    rewrite Z2Nat.id by discriminate. reflexivity.
Qed.

(** C10 (amended).  For [n <= 0] and a vector of at most [INT_MAX]
    elements, fewer than [INT_MAX] of them equal to [a] (so for every
    vector of fewer than [INT_MAX] elements), [findInVector(a, vect, n)]
    returns [-1]: [iteration] starts at [1] and is incremented once for
    each occurrence, without overflow, so it never equals [n]. *)
Theorem findInVector_nth_nonpositive {T : Type} (equal : T -> T -> bool)
  (a : T) (vect : list T) (n : Z) :
  n <= 0 ->
  Z.of_nat (length vect) <= INT_MAX ->
  occurrences equal a vect < INT_MAX ->
  findInVector_nth equal a vect n = Some (-1).
Proof.
  intros Hn Hlen Hocc. unfold findInVector_nth. cbv zeta.
  apply loop_misses_within; lia.
Qed.

Lemma findInVector_nth_nonpositive_witness :
  findInVector_nth Z.eqb 3 [1; 2; 3; 4; 3] 0 = Some (-1)
  /\ findInVector_nth Z.eqb 3 [3; 3; 3] (-2) = Some (-1).
Proof.
  split.
  - apply findInVector_nth_nonpositive;
      [discriminate | discriminate | reflexivity].
  - apply findInVector_nth_nonpositive;
      [discriminate | discriminate | reflexivity].
Defined.

(** C10 as stated fails on a vector of [INT_MAX = 2^31 - 1] zeros
    searched for [0] with [n = 0]: every element is an occurrence, and
    at the last one [iteration++] takes [int iteration] from [INT_MAX]
    past it, which is undefined: the counter does not only grow, and no
    [-1] is returned. *)
Lemma findInVector_nth_count_overflows :
  Z.of_nat (length full_vector) = INT_MAX
  /\ occurrences Z.eqb 0 full_vector = INT_MAX
  /\ findInVector_nth Z.eqb 0 full_vector 0 = None.
Proof.
  unfold full_vector. split; [|split].
  - rewrite repeat_length. apply Z2Nat.id. discriminate.
  - rewrite occurrences_repeat. cbn [Z.eqb]. apply Z2Nat.id. discriminate.
  - unfold findInVector_nth. cbv zeta.
    rewrite findInVector_nth_from_all_equal
      by (reflexivity || (split; discriminate)).
    rewrite Z2Nat.id by discriminate. reflexivity.
Qed.

(** * Further properties of the header *)

(** ** The mixer is a permutation *)

Lemma testbit_above_64 (x i : Z) :
  0 <= x < 2 ^ 64 -> 64 <= i -> Z.testbit x i = false.
Proof.
  intros Hx Hi. rewrite <- (Z.mod_small x (2 ^ 64)) by assumption.
  apply Z.mod_pow2_bits_high. lia.
Qed.

(** Folding the high half onto the low half twice gives the value
    back. *)
Lemma fold_high_involutive (x : Z) :
  0 <= x < 2 ^ 64 ->
  let y := Z.lxor (Z.shiftr x 32) x in
  Z.lxor (Z.shiftr y 32) y = x.
Proof.
  intros Hx y. apply Z.bits_inj'. intros n Hn. unfold y.
  rewrite !Z.lxor_spec, !Z.shiftr_spec, Z.lxor_spec, !Z.shiftr_spec by lia.
  rewrite (testbit_above_64 x (n + 32 + 32)) by lia.
  destruct (Z.testbit x (n + 32)), (Z.testbit x n); reflexivity.
Qed.

(** Multiplying by a constant and then by its inverse modulo [2^64]. *)
Lemma mul_inverse_wrap64 (c cinv x : Z) :
  wrap64 (c * cinv) = 1 -> wrap64 (wrap64 (x * c) * cinv) = wrap64 x.
Proof.
  unfold wrap64. intros Hinv.
  rewrite Z.mul_mod_idemp_l by discriminate.
  rewrite <- Z.mul_assoc, Z.mul_mod, Hinv by discriminate.
  rewrite Z.mul_1_r. apply Z.mod_mod. discriminate.
Qed.

Lemma wrap64_small (z : Z) : 0 <= z < 2 ^ 64 -> wrap64 z = z.
Proof. intros Hz. unfold wrap64. apply Z.mod_small. assumption. Qed.

Lemma wrap64_add_sub (s c : Z) : wrap64 (wrap64 (s + c) - c) = wrap64 s.
Proof.
  unfold wrap64. rewrite Zminus_mod_idemp_l. f_equal. lia.
Qed.

Lemma wrap64_sub_add (s c : Z) : wrap64 (wrap64 (s - c) + c) = wrap64 s.
Proof.
  unfold wrap64. rewrite Z.add_mod_idemp_l by discriminate. f_equal. lia.
Qed.

Lemma LehmerInt64_inverse_range (r : Z) :
  0 <= LehmerInt64_inverse r < 2 ^ 64.
Proof. unfold LehmerInt64_inverse. apply wrap64_range. Qed.

Lemma LehmerInt64_inverse_left (seed : Z) :
  0 <= seed < 2 ^ 64 -> LehmerInt64_inverse (LehmerInt64 seed) = seed.
Proof.
  intros Hs. unfold LehmerInt64, LehmerInt64_inverse. cbv zeta.
  set (s1 := wrap64 (seed + 0xe120fc15)).
  set (t1 := wrap64 (s1 * 0x4a39b70d)).
  set (m1 := Z.lxor (Z.shiftr t1 32) t1).
  set (t2 := wrap64 (m1 * 0x12fad5c9)).
  assert (Hm1 : 0 <= m1 < 2 ^ 64)
    by (apply fold_high_range, wrap64_range).
  rewrite (fold_high_involutive t2 (wrap64_range _)).
  unfold t2. rewrite mul_inverse_wrap64 by reflexivity.
  rewrite (wrap64_small m1 Hm1). unfold m1.
  rewrite (fold_high_involutive t1 (wrap64_range _)).
  unfold t1. rewrite mul_inverse_wrap64 by reflexivity.
  unfold s1. rewrite (wrap64_small (wrap64 _) (wrap64_range _)).
  rewrite wrap64_add_sub. apply wrap64_small. assumption.
Qed.

Lemma LehmerInt64_inverse_right (r : Z) :
  0 <= r < 2 ^ 64 -> LehmerInt64 (LehmerInt64_inverse r) = r.
Proof.
  intros Hr. unfold LehmerInt64, LehmerInt64_inverse. cbv zeta.
  set (t2 := Z.lxor (Z.shiftr r 32) r).
  set (m1 := wrap64 (t2 * 5642803286419657849)).
  set (t1 := Z.lxor (Z.shiftr m1 32) m1).
  set (s1 := wrap64 (t1 * 14320223067223486405)).
  assert (Ht2 : 0 <= t2 < 2 ^ 64) by (apply fold_high_range; assumption).
  assert (Ht1 : 0 <= t1 < 2 ^ 64)
    by (apply fold_high_range, wrap64_range).
  rewrite wrap64_sub_add.
  unfold s1. rewrite (wrap64_small (wrap64 _) (wrap64_range _)).
  rewrite mul_inverse_wrap64 by reflexivity.
  rewrite (wrap64_small t1 Ht1). unfold t1.
  rewrite (fold_high_involutive m1 (wrap64_range _)).
  unfold m1. rewrite mul_inverse_wrap64 by reflexivity.
  rewrite (wrap64_small t2 Ht2). unfold t2.
  apply fold_high_involutive. assumption.
Qed.

Lemma LehmerInt64_injective (seed seed' : Z) :
  0 <= seed < 2 ^ 64 -> 0 <= seed' < 2 ^ 64 ->
  LehmerInt64 seed = LehmerInt64 seed' -> seed = seed'.
Proof.
  intros Hs Hs' Heq.
  rewrite <- (LehmerInt64_inverse_left seed Hs),
          <- (LehmerInt64_inverse_left seed' Hs').
  f_equal. assumption.
Qed.

(** X1.  [LehmerInt64] permutes the 64-bit values: two different seeds
    never give the same result, and every 64-bit value is the result
    of some seed. *)
Theorem LehmerInt64_permutation :
  (forall seed seed',
      0 <= seed < 2 ^ 64 -> 0 <= seed' < 2 ^ 64 ->
      LehmerInt64 seed = LehmerInt64 seed' -> seed = seed')
  /\ (forall r, 0 <= r < 2 ^ 64 ->
        exists seed, 0 <= seed < 2 ^ 64 /\ LehmerInt64 seed = r).
Proof.
  split.
  - apply LehmerInt64_injective.
  - intros r Hr. exists (LehmerInt64_inverse r). split.
    + apply LehmerInt64_inverse_range.
    + apply LehmerInt64_inverse_right. assumption.
Qed.

(** The largest 64-bit value is reached, from a 64-bit seed. *)
Lemma LehmerInt64_permutation_witness :
  exists seed, 0 <= seed < 2 ^ 64 /\ LehmerInt64 seed = UINT64_MAX.
Proof.
  apply (proj2 LehmerInt64_permutation UINT64_MAX).
  split; [discriminate | reflexivity].
Defined.

(** ** What the overloads without a seed return *)

Lemma wrap64_eq_close (a b : Z) :
  wrap64 a = wrap64 b -> Z.abs (a - b) < 2 ^ 64 -> a = b.
Proof.
  unfold wrap64. intros Heq Hclose.
  pose proof (Z.div_mod a (2 ^ 64) ltac:(discriminate)) as Ha.
  pose proof (Z.div_mod b (2 ^ 64) ltac:(discriminate)) as Hb.
  rewrite Heq in Ha.
  set (qa := a / 2 ^ 64) in *. set (qb := b / 2 ^ 64) in *.
  set (r := b mod 2 ^ 64) in *.
  change (2 ^ 64) with 18446744073709551616 in *. lia.
Qed.

Lemma NoDup_map_injective_on {A B : Type} (f : A -> B) (l : list A) :
  NoDup l ->
  (forall x y, In x l -> In y l -> f x = f y -> x = y) ->
  NoDup (map f l).
Proof.
  induction 1 as [|x l Hx Hl IH]; intros Hinj; simpl; constructor.
  - intros Hin. apply in_map_iff in Hin. destruct Hin as (y & Hy & Hin).
    assert (y = x) by (apply Hinj; simpl; auto). subst y. contradiction.
  - apply IH. intros a b Ha Hb. apply Hinj; simpl; auto.
Qed.

Lemma LehmerInt64_noseed_times_S (n : nat) (w : World) :
  LehmerInt64_noseed_times (S n) w
  = (fst (LehmerInt64_noseed w)
       :: fst (LehmerInt64_noseed_times n (snd (LehmerInt64_noseed w))),
     snd (LehmerInt64_noseed_times n (snd (LehmerInt64_noseed w)))).
Proof.
  change (LehmerInt64_noseed_times (S n) w)
    with (let (r, w1) := LehmerInt64_noseed w in
          let (rs, w2) := LehmerInt64_noseed_times n w1 in (r :: rs, w2)).
  destruct (LehmerInt64_noseed w) as [r w1]. cbn [fst snd].
  destruct (LehmerInt64_noseed_times n w1); reflexivity.
Qed.

(** The values returned by [n] calls in a row, from any world. *)
Lemma LehmerInt64_noseed_times_results (n : nat) :
  forall w,
    fst (LehmerInt64_noseed_times n w)
    = map (fun k => LehmerInt64 (wrap64 (seed_LehmerInt64 w + Z.of_nat k)))
        (seq 1 n).
Proof.
  induction n as [|n IH]; intros w; [reflexivity|].
  rewrite LehmerInt64_noseed_times_S. cbn [fst].
  rewrite (IH (snd (LehmerInt64_noseed w))).
  change (seed_LehmerInt64 (snd (LehmerInt64_noseed w)))
    with (wrap64 (seed_LehmerInt64 w + 1)).
  change (fst (LehmerInt64_noseed w))
    with (LehmerInt64 (wrap64 (seed_LehmerInt64 w + 1))).
  change (seq 1 (S n)) with (1%nat :: seq 2 n).
  rewrite <- (seq_shift n 1), map_cons, map_map. f_equal.
  apply map_ext. intros k. f_equal.
  unfold wrap64. rewrite Z.add_mod_idemp_l by discriminate.
  f_equal. lia.
Qed.

(** X2.  Up to [2^64] calls of [LehmerInt64()] in a row return pairwise
    different values, whatever the counter was before; counted from
    the start of the process the [k]-th of them returns
    [LehmerInt64(k)]. *)
Theorem LehmerInt64_noseed_never_repeats (n : nat) (w : World) :
  Z.of_nat n <= 2 ^ 64 ->
  NoDup (fst (LehmerInt64_noseed_times n w))
  /\ (Z.of_nat n < 2 ^ 64 ->
      fst (LehmerInt64_noseed_times n initial)
      = map (fun k => LehmerInt64 (Z.of_nat k)) (seq 1 n)).
Proof.
  intros Hn. split.
  - rewrite LehmerInt64_noseed_times_results.
    apply NoDup_map_injective_on; [apply seq_NoDup|].
    intros j k Hj Hk Heq. apply in_seq in Hj, Hk.
    apply LehmerInt64_injective in Heq; try apply wrap64_range.
    apply wrap64_eq_close in Heq; lia.
  - intros Hlt. rewrite LehmerInt64_noseed_times_results.
    apply map_ext_in. intros k Hk. apply in_seq in Hk.
    simpl seed_LehmerInt64. f_equal. apply wrap64_small. lia.
Qed.

(** Three calls from the start of the process. *)
Lemma LehmerInt64_noseed_never_repeats_witness :
  NoDup (fst (LehmerInt64_noseed_times 3 initial))
  /\ fst (LehmerInt64_noseed_times 3 initial)
     = [LehmerInt64 1; LehmerInt64 2; LehmerInt64 3].
Proof.
  destruct (LehmerInt64_noseed_never_repeats 3 initial) as [Hd Hv];
    [discriminate|].
  split; [exact Hd | exact (Hv eq_refl)].
Defined.

(** X3.  After any sequence of calls of the three overloads, the next
    call of an overload returns what its seeded twin returns for the
    number of calls made to that overload so far plus one (modulo
    [2^64]); calls to the other two overloads do not matter. *)
Theorem noseed_returns_seeded (calls : list EntryPoint) :
  let w := run calls initial in
  fst (LehmerInt64_noseed w)
  = LehmerInt64 (wrap64 (Z.of_nat (calls_to NoSeedInt64 calls) + 1))
  /\ fst (LehmerFloat_noseed w)
     = LehmerFloat (wrap64 (Z.of_nat (calls_to NoSeedFloat calls) + 1))
  /\ fst (randBool_noseed w)
     = randBool (wrap64 (Z.of_nat (calls_to NoSeedBool calls) + 1)).
Proof.
  intros w.
  destruct (run_counters calls NoSeedInt64) as [Hi _].
  destruct (run_counters calls NoSeedFloat) as [Hf _].
  destruct (run_counters calls NoSeedBool) as [Hb _].
  simpl counter in Hi, Hf, Hb. fold w in Hi, Hf, Hb.
  unfold seed_number in Hi, Hf, Hb.
  repeat split.
  - change (fst (LehmerInt64_noseed w))
      with (LehmerInt64 (wrap64 (seed_LehmerInt64 w + 1))).
    rewrite Hi, wrap64_succ. reflexivity.
  - change (fst (LehmerFloat_noseed w))
      with (LehmerFloat (wrap64 (seed_LehmerFloat w + 1))).
    rewrite Hf, wrap64_succ. reflexivity.
  - change (fst (randBool_noseed w))
      with (randBool (wrap64 (seed_randBool w + 1))).
    rewrite Hb, wrap64_succ. reflexivity.
Qed.

(** ** Interpolation in [float] *)

Lemma mul_finite_zero (alpha : F32.t) (s0 : bool) :
  F32.is_finite alpha = true ->
  exists s, F32.mul alpha (S754_zero s0) = S754_zero s.
Proof.
  destruct alpha as [s|s| |s m e]; simpl; intros Hf; try discriminate;
    eexists; reflexivity.
Qed.

(** X4.  [fLerp(A, B, alpha) == A] in two cases: when [alpha] is zero
    and the span [B - A] is finite, and when the two ends are the same
    finite number and [alpha] is finite. *)
Theorem fLerp_returns_first_end (A B alpha : F32.t) :
  (F32.eqb alpha F32.zero = true ->
   F32.is_finite (F32.sub B A) = true ->
   F32.eqb (fLerp A B alpha) A = true)
  /\ (F32.is_finite A = true -> F32.is_finite alpha = true ->
      F32.eqb (fLerp A A alpha) A = true).
Proof.
  split.
  - apply fLerp_at_zero.
  - intros HA Halpha. unfold fLerp, Lerp_float.
    rewrite (sub_diag_finite A HA). change F32.zero with (S754_zero false).
    destruct (mul_finite_zero alpha false Halpha) as [s ->].
    apply add_zero_finite. assumption.
Qed.

(** From [3] to [7] at alpha [-0], and from [3] to [3] at alpha [100]. *)
Lemma fLerp_returns_first_end_witness :
  F32.eqb (fLerp (F32.of_Z 3) (F32.of_Z 7) (S754_zero true)) (F32.of_Z 3)
  = true
  /\ F32.eqb (fLerp (F32.of_Z 3) (F32.of_Z 3) (F32.of_Z 100)) (F32.of_Z 3)
     = true.
Proof.
  split.
  - exact (proj1 (fLerp_returns_first_end (F32.of_Z 3) (F32.of_Z 7)
                    (S754_zero true)) eq_refl eq_refl).
  - exact (proj2 (fLerp_returns_first_end (F32.of_Z 3) (F32.of_Z 7)
                    (F32.of_Z 100)) eq_refl eq_refl).
Defined.

(** ** The range mapper on NaN and at the bounds *)

Lemma sub_nan_l (x : F32.t) : F32.sub S754_nan x = S754_nan.
Proof. reflexivity. Qed.

Lemma sub_nan_r (x : F32.t) : F32.sub x S754_nan = S754_nan.
Proof. destruct x; reflexivity. Qed.

Lemma div_nan_l (x : F32.t) : F32.div S754_nan x = S754_nan.
Proof. reflexivity. Qed.

Lemma div_nan_r (x : F32.t) : F32.div x S754_nan = S754_nan.
Proof. destruct x; reflexivity. Qed.

Lemma add_nan_r (x : F32.t) : F32.add x S754_nan = S754_nan.
Proof. destruct x; reflexivity. Qed.

Lemma is_nan_eq (x : F32.t) : F32.is_nan x = true -> x = S754_nan.
Proof. destruct x; simpl; intros; congruence. Qed.

Lemma GetRangeAlpha_nan_bound (minValue maxValue value : F32.t) :
  F32.is_nan minValue || F32.is_nan maxValue = true ->
  GetRangeAlpha minValue maxValue value = S754_nan.
Proof.
  intros Hn. apply orb_true_iff in Hn. unfold GetRangeAlpha.
  destruct Hn as [Hn|Hn]; apply is_nan_eq in Hn; subst.
  - rewrite sub_nan_r. cbv zeta. simpl NearTolerance. cbv iota.
    apply div_nan_r.
  - rewrite sub_nan_l. cbv zeta. simpl NearTolerance. cbv iota.
    apply div_nan_r.
Qed.

Lemma GetRangeAlpha_nan_value (minValue maxValue : F32.t) :
  GetRangeAlpha minValue maxValue S754_nan
  = if NearTolerance (F32.sub maxValue minValue) SMALL_NUMBER
    then F32.zero else S754_nan.
Proof.
  unfold GetRangeAlpha. cbv zeta. destruct (NearTolerance _ _).
  - unfold F32.geb, SFleb. rewrite F32Facts.compare_nan_r by reflexivity.
    reflexivity.
  - rewrite sub_nan_l. apply div_nan_l.
Qed.

(** X5.  A NaN bound makes [GetRangeAlpha] return NaN.  A NaN [value]
    gives NaN on a range that is not degenerate, but [0.0] on a
    degenerate one, where it fails [value >= maxValue]. *)
Theorem GetRangeAlpha_nan (minValue maxValue value : F32.t) :
  (F32.is_nan minValue || F32.is_nan maxValue = true ->
   GetRangeAlpha minValue maxValue value = S754_nan)
  /\ (F32.is_nan value = true ->
      GetRangeAlpha minValue maxValue value
      = if NearTolerance (F32.sub maxValue minValue) SMALL_NUMBER
        then F32.zero else S754_nan).
Proof.
  split.
  - apply GetRangeAlpha_nan_bound.
  - intros Hn. apply is_nan_eq in Hn. subst.
    apply GetRangeAlpha_nan_value.
Qed.

Lemma GetRangeAlpha_nan_witness :
  GetRangeAlpha S754_nan (F32.of_Z 10) (F32.of_Z 5) = S754_nan
  /\ GetRangeAlpha (F32.of_Z 5) (F32.of_Z 5) S754_nan = F32.zero
  /\ GetRangeAlpha (F32.of_Z 0) (F32.of_Z 10) S754_nan = S754_nan.
Proof.
  split; [|split].
  - exact (proj1 (GetRangeAlpha_nan S754_nan (F32.of_Z 10) (F32.of_Z 5))
             eq_refl).
  - exact (proj2 (GetRangeAlpha_nan (F32.of_Z 5) (F32.of_Z 5) S754_nan)
             eq_refl).
  - exact (proj2 (GetRangeAlpha_nan (F32.of_Z 0) (F32.of_Z 10) S754_nan)
             eq_refl).
Defined.

(** X6.  With a NaN [value] on a range that is not degenerate, the
    unclamped mapping returns NaN, while the clamped mapping clamps the
    NaN alpha to [1] and returns the interpolation at the upper end. *)
Theorem mapped_value_of_nan (inMin inMax outMin outMax : F32.t) :
  NearTolerance (F32.sub inMax inMin) SMALL_NUMBER = false ->
  GetMappedValueUnclamped inMin inMax outMin outMax S754_nan = S754_nan
  /\ GetMappedValueClamped inMin inMax outMin outMax S754_nan
     = fLerp outMin outMax F32.one.
Proof.
  intros Hrange.
  assert (Halpha : GetRangeAlpha inMin inMax S754_nan = S754_nan).
  { rewrite GetRangeAlpha_nan_value, Hrange. reflexivity. }
  revert Halpha.
  unfold GetMappedValueUnclamped, GetMappedValueClamped. intros ->.
  split; [|reflexivity].
  unfold fLerp, Lerp_float. apply add_nan_r.
Qed.

Lemma mapped_value_of_nan_witness :
  GetMappedValueUnclamped (F32.of_Z 0) (F32.of_Z 10) (F32.of_Z 0)
    (F32.of_Z 100) S754_nan = S754_nan
  /\ GetMappedValueClamped (F32.of_Z 0) (F32.of_Z 10) (F32.of_Z 0)
       (F32.of_Z 100) S754_nan = F32.of_Z 100.
Proof.
  exact (mapped_value_of_nan (F32.of_Z 0) (F32.of_Z 10) (F32.of_Z 0)
           (F32.of_Z 100) eq_refl).
Defined.

Lemma div_eucl_shiftl_self (m : positive) :
  Z.div_eucl (Z.shiftl (Z.pos m) 24) (Z.pos m) = (2 ^ 24, 0).
Proof.
  rewrite Z.shiftl_mul_pow2 by discriminate.
  pose proof (Z_div_mult_full (2 ^ 24) (Z.pos m) ltac:(discriminate)) as Hd.
  pose proof (Z_mod_mult (2 ^ 24) (Z.pos m)) as Hm.
  unfold Z.div, Z.modulo in Hd, Hm.
  rewrite (Z.mul_comm (2 ^ 24)) in Hd, Hm.
  destruct (Z.div_eucl (Z.pos m * 2 ^ 24) (Z.pos m)) as [q r].
  simpl in Hd, Hm. subst. reflexivity.
Qed.

(** A finite number divided by itself is exactly [1] (or [-1]). *)
Lemma div_self (sx sy : bool) (m : positive) (e : Z) :
  F32.div (S754_finite sx m e) (S754_finite sy m e)
  = S754_finite (xorb sx sy) 8388608 (-23).
Proof.
  unfold F32.div, SFdiv, SFdiv_core_binary. cbv zeta.
  rewrite !Z.sub_diag.
  change (Z.min (fexp F32.prec F32.emax 0) 0) with (-24).
  change (0 - -24) with 24. cbv iota.
  rewrite div_eucl_shiftl_self.
  replace (new_location (Z.pos m) 0) with loc_Exact
    by (unfold new_location; destruct (Z.even (Z.pos m)); reflexivity).
  reflexivity.
Qed.

(** A span that passes the tolerance test is not a zero. *)
Lemma not_near_tolerance_nonzero (d : F32.t) :
  NearTolerance d SMALL_NUMBER = false ->
  F32.is_finite d = true ->
  exists s m e, d = S754_finite s m e.
Proof.
  destruct d as [s|s| |s m e]; intros Hn Hf; try discriminate.
  exists s, m, e. reflexivity.
Qed.

Lemma div_zero_by_span (d : F32.t) :
  NearTolerance d SMALL_NUMBER = false ->
  F32.is_nan d = false ->
  exists s, F32.div F32.zero d = S754_zero s.
Proof.
  destruct d as [s|s| |s m e]; intros Hn Hnan; try discriminate;
    eexists; reflexivity.
Qed.

Lemma sub_diag_not_finite (x : F32.t) :
  F32.is_finite x = false -> F32.sub x x = S754_nan.
Proof.
  destruct x as [s|s| |s m e]; simpl; intros Hf; try discriminate;
    [destruct s|]; reflexivity.
Qed.

(** X7.  On a range whose two bounds are the same finite number,
    [GetRangeAlpha] is a step: [1.0] for [value >= bound], [0.0] below
    and for a NaN [value].  When the common bound is an infinity or NaN
    the result is NaN. *)
Theorem GetRangeAlpha_equal_bounds_step (bound value : F32.t) :
  (F32.is_finite bound = true ->
   GetRangeAlpha bound bound value
   = if F32.geb value bound then F32.one else F32.zero)
  /\ (F32.is_finite bound = false ->
      GetRangeAlpha bound bound value = S754_nan).
Proof.
  split; intros Hf; unfold GetRangeAlpha.
  - rewrite (sub_diag_finite bound Hf). reflexivity.
  - rewrite (sub_diag_not_finite bound Hf). cbv zeta.
    simpl NearTolerance. cbv iota. apply div_nan_r.
Qed.

Lemma GetRangeAlpha_equal_bounds_step_witness :
  GetRangeAlpha (F32.of_Z (-2)) (F32.of_Z (-2)) (F32.of_Z (-2)) = F32.one
  /\ GetRangeAlpha (S754_infinity false) (S754_infinity false) (F32.of_Z 1)
     = S754_nan.
Proof.
  split.
  - exact (proj1 (GetRangeAlpha_equal_bounds_step (F32.of_Z (-2))
                    (F32.of_Z (-2))) eq_refl).
  - exact (proj2 (GetRangeAlpha_equal_bounds_step (S754_infinity false)
                    (F32.of_Z 1)) eq_refl).
Defined.

Lemma GetRangeAlpha_at_maxValue (minValue maxValue : F32.t) :
  NearTolerance (F32.sub maxValue minValue) SMALL_NUMBER = false ->
  F32.is_finite (F32.sub maxValue minValue) = true ->
  GetRangeAlpha minValue maxValue maxValue = F32.one.
Proof.
  intros Hn Hf. unfold GetRangeAlpha. cbv zeta. rewrite Hn.
  destruct (not_near_tolerance_nonzero _ Hn Hf) as (s & m & e & ->).
  rewrite div_self. destruct s; reflexivity.
Qed.

Lemma GetRangeAlpha_at_minValue (minValue maxValue : F32.t) :
  NearTolerance (F32.sub maxValue minValue) SMALL_NUMBER = false ->
  F32.is_nan (F32.sub maxValue minValue) = false ->
  F32.is_finite minValue = true ->
  exists s, GetRangeAlpha minValue maxValue minValue = S754_zero s.
Proof.
  intros Hn Hnan Hf. unfold GetRangeAlpha. cbv zeta. rewrite Hn.
  rewrite (sub_diag_finite minValue Hf).
  apply div_zero_by_span; assumption.
Qed.

(** X8.  On a range that is not degenerate, [GetRangeAlpha] is exactly
    [1.0] at [value = maxValue] when the span [maxValue - minValue] is
    finite, and NaN there when the span has overflowed to an infinity;
    it is a zero at [value = minValue] when [minValue] is finite and
    the span is not NaN. *)
Theorem GetRangeAlpha_at_bounds (minValue maxValue : F32.t) :
  NearTolerance (F32.sub maxValue minValue) SMALL_NUMBER = false ->
  (F32.is_finite (F32.sub maxValue minValue) = true ->
   GetRangeAlpha minValue maxValue maxValue = F32.one)
  /\ (F32.is_finite (F32.sub maxValue minValue) = false ->
      GetRangeAlpha minValue maxValue maxValue = S754_nan)
  /\ (F32.is_nan (F32.sub maxValue minValue) = false ->
      F32.is_finite minValue = true ->
      F32.eqb (GetRangeAlpha minValue maxValue minValue) F32.zero = true).
Proof.
  intros Hn. split; [|split].
  - apply GetRangeAlpha_at_maxValue. assumption.
  - intros Hf. unfold GetRangeAlpha. cbv zeta. rewrite Hn.
    destruct (F32.sub maxValue minValue) as [s|s| |s m e];
      simpl in Hf; try discriminate; reflexivity.
  - intros Hnan Hf.
    destruct (GetRangeAlpha_at_minValue minValue maxValue Hn Hnan Hf)
      as [s ->].
    destruct s; reflexivity.
Qed.

(** The range [[0, 10]], and a range from [-2^127] to [2^127] whose
    span overflows. *)
Lemma GetRangeAlpha_at_bounds_witness :
  GetRangeAlpha (F32.of_Z 0) (F32.of_Z 10) (F32.of_Z 10) = F32.one
  /\ F32.eqb (GetRangeAlpha (F32.of_Z 0) (F32.of_Z 10) (F32.of_Z 0))
       F32.zero = true
  /\ GetRangeAlpha (S754_finite true 8388608 104)
       (S754_finite false 8388608 104) (S754_finite false 8388608 104)
     = S754_nan.
Proof.
  destruct (GetRangeAlpha_at_bounds (F32.of_Z 0) (F32.of_Z 10) eq_refl)
    as (Hmax & _ & Hmin).
  destruct (GetRangeAlpha_at_bounds (S754_finite true 8388608 104)
              (S754_finite false 8388608 104) eq_refl) as (_ & Hinf & _).
  split; [exact (Hmax eq_refl)|].
  split; [exact (Hmin eq_refl eq_refl) | exact (Hinf eq_refl)].
Defined.

Lemma fClamp_of_zero (s : bool) :
  fClamp (S754_zero s) F32.zero F32.one = S754_zero s.
Proof. destruct s; reflexivity. Qed.

(** X9.  The bounds of the input range map to the ends of the
    interpolation, clamped or not: [value = inMin] gives a result equal
    to [outMin], and [value = inMax] gives [fLerp(outMin, outMax, 1)].
    This needs an input range that is not degenerate, with a finite
    span, a finite [inMin], and for the lower end a finite output
    span. *)
Theorem mapped_value_at_bounds (inMin inMax outMin outMax : F32.t) :
  NearTolerance (F32.sub inMax inMin) SMALL_NUMBER = false ->
  F32.is_finite (F32.sub inMax inMin) = true ->
  (GetMappedValueUnclamped inMin inMax outMin outMax inMax
   = fLerp outMin outMax F32.one
   /\ GetMappedValueClamped inMin inMax outMin outMax inMax
      = fLerp outMin outMax F32.one)
  /\ (F32.is_finite inMin = true ->
      F32.is_finite (F32.sub outMax outMin) = true ->
      F32.eqb (GetMappedValueUnclamped inMin inMax outMin outMax inMin)
        outMin = true
      /\ F32.eqb (GetMappedValueClamped inMin inMax outMin outMax inMin)
           outMin = true).
Proof.
  intros Hn Hf. split.
  - unfold GetMappedValueUnclamped, GetMappedValueClamped.
    rewrite (GetRangeAlpha_at_maxValue inMin inMax Hn Hf).
    split; reflexivity.
  - intros Hmin Hout.
    assert (Hnan : F32.is_nan (F32.sub inMax inMin) = false)
      by (destruct (F32.sub inMax inMin); simpl in *; congruence).
    destruct (GetRangeAlpha_at_minValue inMin inMax Hn Hnan Hmin)
      as [s Halpha].
    unfold GetMappedValueUnclamped, GetMappedValueClamped.
    rewrite Halpha, fClamp_of_zero.
    assert (Hz : F32.eqb (S754_zero s) F32.zero = true)
      by (destruct s; reflexivity).
    split; apply fLerp_at_zero; assumption.
Qed.

Lemma mapped_value_at_bounds_witness :
  F32.eqb
    (GetMappedValueClamped (F32.of_Z 0) (F32.of_Z 10) (F32.of_Z (-1))
       (F32.of_Z 3) (F32.of_Z 0))
    (F32.of_Z (-1)) = true
  /\ GetMappedValueUnclamped (F32.of_Z 0) (F32.of_Z 10) (F32.of_Z (-1))
       (F32.of_Z 3) (F32.of_Z 10) = F32.of_Z 3.
Proof.
  destruct (mapped_value_at_bounds (F32.of_Z 0) (F32.of_Z 10)
              (F32.of_Z (-1)) (F32.of_Z 3) eq_refl eq_refl)
    as [[Hup _] Hlow].
  split.
  - exact (proj2 (Hlow eq_refl eq_refl)).
  - rewrite Hup. reflexivity.
Defined.

Lemma eqb_one (x : F32.t) : F32.eqb x F32.one = true -> x = F32.one.
Proof.
  pose proof (Pos.compare_eq) as Hpos. unfold Pos.compare in Hpos.
  destruct x as [s|s| |s m e];
    cbv beta iota delta [F32.eqb SFeqb SFcompare F32.one]; intros Heq.
  - discriminate Heq.
  - destruct s; discriminate Heq.
  - discriminate Heq.
  - destruct s; [discriminate Heq|].
    destruct (e ?= -23) eqn:He; try discriminate Heq.
    destruct (Pos.compare_cont Eq m 8388608) eqn:Hm; try discriminate Heq.
    apply Z.compare_eq in He. apply Hpos in Hm. subst. reflexivity.
Qed.

(** A value already in [[0, 1]] is its own clamp. *)
Lemma fClamp_in_unit_range (x : F32.t) :
  F32.leb F32.zero x = true -> F32.leb x F32.one = true ->
  fClamp x F32.zero F32.one = x.
Proof.
  intros H0 H1. unfold fClamp, Clamp, less, Less_float.
  rewrite (F32Facts.leb_not_gtb _ _ H0).
  destruct (F32.ltb x F32.one) eqn:E; [reflexivity|].
  symmetry. apply eqb_one.
  pose proof (F32Facts.leb_not_ltb_eqb x F32.one H1 E) as Heq.
  unfold F32.eqb, SFeqb in *.
  rewrite (F32Facts.compare_antisym F32.one x).
  destruct (SFcompare F32.one x) as [[]|]; simpl in *; congruence.
Qed.

(** X10.  Whenever the alpha computed by [GetRangeAlpha] lies in
    [[0, 1]], the clamped and the unclamped mapping return the same
    value. *)
Theorem mapped_values_agree_inside
  (inMin inMax outMin outMax value : F32.t) :
  F32.leb F32.zero (GetRangeAlpha inMin inMax value) = true ->
  F32.leb (GetRangeAlpha inMin inMax value) F32.one = true ->
  GetMappedValueClamped inMin inMax outMin outMax value
  = GetMappedValueUnclamped inMin inMax outMin outMax value.
Proof.
  intros H0 H1. unfold GetMappedValueClamped, GetMappedValueUnclamped.
  rewrite (fClamp_in_unit_range _ H0 H1). reflexivity.
Qed.

(** [5] in [[0, 10]], mapped to [[0, 100]]: both give [50]. *)
Lemma mapped_values_agree_inside_witness :
  GetMappedValueClamped (F32.of_Z 0) (F32.of_Z 10) (F32.of_Z 0)
    (F32.of_Z 100) (F32.of_Z 5)
  = GetMappedValueUnclamped (F32.of_Z 0) (F32.of_Z 10) (F32.of_Z 0)
      (F32.of_Z 100) (F32.of_Z 5).
Proof.
  exact (mapped_values_agree_inside (F32.of_Z 0) (F32.of_Z 10)
           (F32.of_Z 0) (F32.of_Z 100) (F32.of_Z 5) eq_refl eq_refl).
Defined.

(** ** More on [Clamp] *)

Section ClampAgain.

Context {T : Type} `{ComparableLaws T}.

(** X11.  Whenever [min <= max], clamping a clamped value changes
    nothing: [Clamp(Clamp(v, min, max), min, max) == Clamp(v, min, max)]. *)
Theorem Clamp_idempotent (value Min Max : T) :
  less_eq Min Max = true ->
  equal_to (Clamp (Clamp value Min Max) Min Max) (Clamp value Min Max)
  = true.
Proof.
  intros Hmm.
  pose proof (Clamp_lower value Min Max Hmm) as Hlo.
  pose proof (Clamp_upper value Min Max Hmm) as Hhi.
  set (r := Clamp value Min Max) in *.
  unfold Clamp at 1.
  rewrite (less_eq_not_less _ _ Hlo).
  destruct (less r Max) eqn:E.
  - apply equal_to_self. apply (less_eq_self _ _ Hhi).
  - apply less_eq_not_less_equal; assumption.
Qed.

End ClampAgain.

(** At [float] with a value above the range, and at [int], where [==]
    is equality. *)
Lemma Clamp_idempotent_witness :
  F32.eqb (fClamp (fClamp F32.two F32.zero F32.one) F32.zero F32.one)
    (fClamp F32.two F32.zero F32.one) = true
  /\ Clamp (Clamp (-3) 0 5) 0 5 = Clamp (-3) 0 5.
Proof.
  split.
  - exact (Clamp_idempotent (T := F32.t) F32.two F32.zero F32.one eq_refl).
  - apply Z.eqb_eq.
    exact (Clamp_idempotent (T := Z) (-3) 0 5 eq_refl).
Defined.

(** X12.  At [int] with the bounds the wrong way round, [Max < Min],
    [Clamp] never returns anything but a bound: [Min] for a value below
    [Min] and [Max] for every other value, so it is no longer
    idempotent. *)
Theorem Clamp_inverted_range (value Min Max : Z) :
  Max < Min ->
  Clamp value Min Max = (if value <? Min then Min else Max)
  /\ (value < Min -> Clamp (Clamp value Min Max) Min Max = Max).
Proof.
  intros Hinv. unfold Clamp, less, Less_int. split.
  - destruct (Z.ltb_spec value Min) as [Hlt|Hge]; [reflexivity|].
    destruct (Z.ltb_spec value Max); [lia | reflexivity].
  - intros Hlt. destruct (Z.ltb_spec value Min); [|lia].
    rewrite Z.ltb_irrefl.
    destruct (Z.ltb_spec Min Max); [lia | reflexivity].
Qed.

Lemma Clamp_inverted_range_witness :
  Clamp 0 10 5 = 10 /\ Clamp (Clamp 0 10 5) 10 5 = 5.
Proof.
  destruct (Clamp_inverted_range 0 10 5 eq_refl) as [H1 H2].
  split; [exact H1 | exact (H2 eq_refl)].
Defined.

(** ** Easing at the two ends *)

Section EasingEnds.

Variable pow : F32.t -> F32.t -> F32.t.

(** X13.  For an exponent with [pow(0, exp) = 0] (C99 F.10.4.4: every
    [exp > 0]), [InterpEaseInOut] starts and ends where [Lerp] does:
    at [alpha = 0] it is [Lerp(A, B, 0)] and at [alpha = 1] it is
    [Lerp(A, B, 1)]. *)
Theorem InterpEaseInOut_ends {T : Type} `{Lerpable T}
  (A B : T) (exp : F32.t) :
  pow F32.zero exp = F32.zero ->
  InterpEaseInOut pow A B F32.zero exp = Lerp A B F32.zero
  /\ InterpEaseInOut pow A B F32.one exp = Lerp A B F32.one.
Proof.
  intros Hpow. unfold InterpEaseInOut. split.
  - change (F32.ltb F32.zero F32.half) with true. cbv iota.
    unfold EaseInHalf, InterpEaseIn_float.
    change (F32.mul F32.zero F32.two) with F32.zero.
    rewrite Hpow. reflexivity.
  - change (F32.ltb F32.one F32.half) with false. cbv iota.
    unfold EaseOutHalf, InterpEaseOut_float.
    change (F32.sub (F32.mul F32.one F32.two) F32.one) with F32.one.
    change (F32.sub F32.one F32.one) with F32.zero.
    rewrite Hpow. reflexivity.
Qed.

End EasingEnds.

Lemma InterpEaseInOut_ends_witness :
  InterpEaseInOut pow_sample (F32.of_Z 2) (F32.of_Z 6) F32.zero F32.one
  = Some (F32.of_Z 2)
  /\ InterpEaseInOut pow_sample (F32.of_Z 2) (F32.of_Z 6) F32.one F32.one
     = Some (F32.of_Z 6).
Proof.
  destruct (InterpEaseInOut_ends pow_sample (F32.of_Z 2) (F32.of_Z 6)
              F32.one eq_refl) as [H0 H1].
  split; [rewrite H0 | rewrite H1]; reflexivity.
Defined.

(** ** [Lerp] at [uint8_t] *)

Lemma same_float_eq (x y : F32.t) : same_float x y = true -> x = y.
Proof.
  destruct x as [a|a| |a m e], y as [b|b| |b n f]; cbn [same_float];
    intros H; try discriminate H; try reflexivity.
  - apply eqb_prop in H. congruence.
  - apply eqb_prop in H. congruence.
  - repeat rewrite andb_true_iff in H. destruct H as [[Hs Hm] He].
    apply eqb_prop in Hs. apply Pos.eqb_eq in Hm. apply Z.eqb_eq in He.
    congruence.
Qed.

Lemma in_byte_differences (d : Z) : -255 <= d <= 255 -> In d byte_differences.
Proof.
  intros Hd. unfold byte_differences. apply in_map_iff.
  exists (Z.to_nat (d + 255)). split; [lia|]. apply in_seq. lia.
Qed.

Lemma all_products_checked :
  forallb (fun d => products_checked d) byte_differences = true.
Proof. vm_compute. reflexivity. Qed.

Lemma all_zero_sums_checked :
  forallb (fun A => zero_sum_checked A) bytes = true.
Proof. vm_compute. reflexivity. Qed.

Lemma all_sums_checked :
  forallb (fun A => forallb (fun B => sums_checked A B) bytes) bytes = true.
Proof. vm_compute. reflexivity. Qed.

Lemma byte_products (d : Z) :
  -255 <= d <= 255 ->
  (exists s, F32.mul F32.zero (F32.of_Z d) = S754_zero s)
  /\ F32.mul F32.one (F32.of_Z d) = F32.of_Z d.
Proof.
  intros Hd. pose proof all_products_checked as Hall.
  rewrite forallb_forall in Hall.
  specialize (Hall d (in_byte_differences d Hd)). cbv beta in Hall.
  unfold products_checked in Hall. apply andb_true_iff in Hall.
  destruct Hall as [H0 H1]. split.
  - destruct (F32.mul F32.zero (F32.of_Z d)) as [s| | |];
      try discriminate H0. exists s. reflexivity.
  - apply same_float_eq. exact H1.
Qed.

Lemma byte_zero_sum (A : Z) (s : bool) :
  0 <= A < 256 ->
  to_unsigned 8 (F32.add (F32.of_Z A) (S754_zero s)) = Some A.
Proof.
  intros HA. pose proof all_zero_sums_checked as Hall.
  rewrite forallb_forall in Hall.
  specialize (Hall A (in_bytes A HA)). cbv beta in Hall.
  unfold zero_sum_checked in Hall. cbv zeta in Hall.
  destruct (to_unsigned 8 (F32.add (F32.of_Z A) (S754_zero false)))
    as [r|] eqn:E0; [|discriminate Hall].
  destruct (to_unsigned 8 (F32.add (F32.of_Z A) (S754_zero true)))
    as [r'|] eqn:E1; [|discriminate Hall].
  apply andb_true_iff in Hall. destruct Hall as [Hr Hr'].
  apply Z.eqb_eq in Hr, Hr'. subst r r'. destruct s; assumption.
Qed.

Lemma byte_sums (A B : Z) :
  0 <= A < 256 -> 0 <= B < 256 ->
  to_unsigned 8 (F32.add (F32.of_Z A) (F32.of_Z (B - A))) = Some B
  /\ to_unsigned 8
       (F32.add (F32.of_Z A) (F32.mul F32.half (F32.of_Z (B - A))))
     = Some ((A + B) / 2).
Proof.
  intros HA HB. pose proof all_sums_checked as Hall.
  rewrite forallb_forall in Hall.
  specialize (Hall A (in_bytes A HA)). cbv beta in Hall.
  rewrite forallb_forall in Hall.
  specialize (Hall B (in_bytes B HB)). cbv beta in Hall.
  unfold sums_checked in Hall. cbv zeta in Hall.
  destruct (to_unsigned 8 (F32.add (F32.of_Z A) (F32.of_Z (B - A))))
    as [r1|]; [|discriminate Hall].
  destruct (to_unsigned 8
              (F32.add (F32.of_Z A) (F32.mul F32.half (F32.of_Z (B - A)))))
    as [rh|]; [|discriminate Hall].
  apply andb_true_iff in Hall. destruct Hall as [H1 Hh].
  apply Z.eqb_eq in H1, Hh. subst. split; reflexivity.
Qed.

(** X14.  For all bytes [A] and [B], [Lerp<uint8_t>] returns [A] at
    alpha [0], [B] at alpha [1], and the mean [(A + B) / 2] rounded down
    at alpha [0.5]; no conversion leaves the range of the type. *)
Theorem Lerp_uint8_ends_and_middle (A B : Z) :
  0 <= A < 256 -> 0 <= B < 256 ->
  Lerp_uint8 A B F32.zero = Some A
  /\ Lerp_uint8 A B F32.one = Some B
  /\ Lerp_uint8 A B F32.half = Some ((A + B) / 2).
Proof.
  intros HA HB. unfold Lerp_uint8.
  rewrite int_result_in_range by (unfold INT_MIN, INT_MAX; lia).
  destruct (byte_products (B - A) ltac:(lia)) as [[s Hzero] Hone].
  destruct (byte_sums A B HA HB) as [Hsum Hhalf].
  rewrite Hzero, Hone. split; [|split].
  - apply byte_zero_sum. assumption.
  - exact Hsum.
  - exact Hhalf.
Qed.

Lemma Lerp_uint8_ends_and_middle_witness :
  Lerp_uint8 200 13 F32.zero = Some 200
  /\ Lerp_uint8 200 13 F32.one = Some 13
  /\ Lerp_uint8 200 13 F32.half = Some 106.
Proof.
  apply (Lerp_uint8_ends_and_middle 200 13);
    split; (discriminate || reflexivity).
Defined.

(** ** More on the searches *)

Lemma occurrences_firstn_mono {T : Type} (equal : T -> T -> bool) (a : T)
  (l : list T) :
  forall j k : nat,
    (j <= k)%nat ->
    occurrences equal a (firstn j l) <= occurrences equal a (firstn k l).
Proof.
  induction l as [|x l IH]; intros j k Hjk.
  - rewrite !firstn_nil. lia.
  - destruct j as [|j].
    + simpl firstn at 1. apply occurrences_nonneg.
    + destruct k as [|k]; [lia|]. simpl firstn.
      rewrite !occurrences_cons.
      specialize (IH j k ltac:(lia)). lia.
Qed.

Lemma occurrences_zero_no_match {T : Type} (equal : T -> T -> bool) (a : T)
  (l : list T) :
  occurrences equal a l = 0 <-> (forall x, In x l -> equal a x = false).
Proof.
  induction l as [|x l IH].
  - split; [intros _ y []|reflexivity].
  - rewrite occurrences_cons.
    pose proof (occurrences_nonneg equal a l) as Hnn.
    destruct (equal a x) eqn:E; split.
    + lia.
    + intros Hall. specialize (Hall x (or_introl eq_refl)). congruence.
    + intros Hz y [<-|Hin]; [assumption|]. apply IH; [lia | assumption].
    + intros Hall. simpl. apply IH. intros y Hin. apply Hall. right.
      assumption.
Qed.

(** X15.  For a vector of fewer than [INT_MAX] elements,
    [findInVector(a, vect)] returns the index of the first element equal
    to [a]: that element is equal to [a] and none before it is; it
    returns [-1] exactly when no element is equal to [a]. *)
Theorem findInVector_first_occurrence {T : Type} (equal : T -> T -> bool)
  (a : T) (vect : list T) :
  Z.of_nat (length vect) < INT_MAX ->
  ((exists x, In x vect /\ equal a x = true) ->
   exists (j : nat) (x : T),
     findInVector equal a vect = Some (Z.of_nat j)
     /\ nth_error vect j = Some x
     /\ equal a x = true
     /\ (forall y, In y (firstn j vect) -> equal a y = false))
  /\ ((forall x, In x vect -> equal a x = false) ->
      findInVector equal a vect = Some (-1)).
Proof.
  intros Hlen. unfold findInVector.
  rewrite <- findInVector_from_is_first.
  pose proof (loop_invariant_initially vect Hlen) as Hinv.
  split.
  - intros (x & Hin & Hx).
    assert (Hocc : 0 < occurrences equal a vect).
    { pose proof (occurrences_nonneg equal a vect) as Hnn.
      destruct (Z.eq_dec (occurrences equal a vect) 0) as [Hz|Hnz]; [|lia].
      rewrite occurrences_zero_no_match in Hz.
      specialize (Hz x Hin). congruence. }
    destruct (loop_finds equal a 1 vect 0 1 Hinv) as (j & y & Hr & Hn & Hy & Hc);
      try lia.
    exists j, y. repeat split; try assumption.
    apply occurrences_zero_no_match. lia.
  - intros Hnone. apply (loop_misses equal a 1 vect 0 1 Hinv).
    right. apply occurrences_zero_no_match in Hnone. lia.
Qed.

Lemma findInVector_first_occurrence_witness :
  (exists (j : nat) (x : Z),
      findInVector Z.eqb 3 [1; 2; 3; 4; 3] = Some (Z.of_nat j)
      /\ nth_error [1; 2; 3; 4; 3] j = Some x
      /\ (3 =? x) = true
      /\ (forall y, In y (firstn j [1; 2; 3; 4; 3]) -> (3 =? y) = false))
  /\ findInVector Z.eqb 9 [1; 2; 3] = Some (-1).
Proof.
  split.
  - apply (findInVector_first_occurrence Z.eqb 3 [1; 2; 3; 4; 3]);
      [reflexivity|].
    exists 3. split; [simpl; auto | reflexivity].
  - apply (findInVector_first_occurrence Z.eqb 9 [1; 2; 3]);
      [reflexivity|].
    intros x [<-|[<-|[<-|[]]]]; reflexivity.
Defined.

(** X16.  On every vector, the search for the first occurrence and the
    search for the [nth] occurrence with [nth = 1] return the same. *)
Theorem findInVector_is_nth_one {T : Type} (equal : T -> T -> bool)
  (a : T) (vect : list T) :
  findInVector equal a vect = findInVector_nth equal a vect 1.
Proof.
  unfold findInVector, findInVector_nth. symmetry.
  apply findInVector_from_is_first.
Qed.

(** X17.  For a vector of fewer than [INT_MAX] elements and [n >= 1]:
    when the search for occurrence [n + 1] finds an index, the search
    for occurrence [n] finds a smaller one, and both are indices of the
    vector; when the search for occurrence [n] returns [-1], so does
    the search for occurrence [n + 1]. *)
Theorem findInVector_nth_increasing {T : Type} (equal : T -> T -> bool)
  (a : T) (vect : list T) (n : Z) :
  Z.of_nat (length vect) < INT_MAX ->
  1 <= n ->
  exists r1 r2,
    findInVector_nth equal a vect n = Some r1
    /\ findInVector_nth equal a vect (n + 1) = Some r2
    /\ (r2 = -1 \/ 0 <= r1 < r2 /\ r2 < Z.of_nat (length vect))
    /\ (r1 = -1 -> r2 = -1).
Proof.
  intros Hlen Hn.
  pose proof (loop_invariant_initially vect Hlen) as Hinv.
  unfold findInVector_nth.
  destruct (Z_lt_le_dec (occurrences equal a vect) (n + 1)) as [Hfew|Hmany].
  - assert (H2 : findInVector_nth_from equal a vect (n + 1) 0 1 = Some (-1))
      by (apply loop_misses; [assumption | lia]).
    destruct (Z_lt_le_dec (occurrences equal a vect) n) as [Hfew1|Hmany1].
    + exists (-1), (-1). repeat split; try assumption; auto.
      apply loop_misses; [assumption | lia].
    + destruct (loop_finds equal a n vect 0 1 Hinv) as (j & x & Hr & _);
        try lia.
      exists (0 + Z.of_nat j), (-1). repeat split; auto.
  - destruct (loop_finds equal a n vect 0 1 Hinv)
      as (j1 & x1 & Hr1 & Hn1 & _ & Hc1); try lia.
    destruct (loop_finds equal a (n + 1) vect 0 1 Hinv)
      as (j2 & x2 & Hr2 & Hn2 & _ & Hc2); try lia.
    exists (0 + Z.of_nat j1), (0 + Z.of_nat j2).
    assert (Hlt : (j1 < j2)%nat).
    { destruct (Nat.lt_ge_cases j1 j2) as [Hlt|Hge]; [assumption|].
      pose proof (occurrences_firstn_mono equal a vect j2 j1 Hge). lia. }
    assert (Hj2 : (j2 < length vect)%nat)
      by (apply nth_error_Some; congruence).
    repeat split; try assumption; lia.
Qed.

(** The second and third of three occurrences, then the third and a
    fourth that is not there. *)
Lemma findInVector_nth_increasing_witness :
  (exists r1 r2,
      findInVector_nth Z.eqb 7 [7; 1; 7; 7; 2] 2 = Some r1
      /\ findInVector_nth Z.eqb 7 [7; 1; 7; 7; 2] (2 + 1) = Some r2
      /\ (r2 = -1 \/ 0 <= r1 < r2 /\ r2 < 5)
      /\ (r1 = -1 -> r2 = -1)).
Proof.
  apply (findInVector_nth_increasing Z.eqb 7 [7; 1; 7; 7; 2] 2);
    [reflexivity | discriminate].
Defined.

(** ** More on the bit operations *)

Lemma land_le_l (a b : Z) : 0 <= a -> Z.land a b <= a.
Proof.
  intros Ha.
  assert (Hd : 0 <= Z.ldiff a b) by (apply Z.ldiff_nonneg; left; assumption).
  assert (Hsum : Z.ldiff a b + Z.land a b = a).
  { rewrite Z.add_nocarry_lxor.
    - rewrite Z.lxor_lor.
      + apply Z.lor_ldiff_and.
      + rewrite (Z.land_comm a b), Z.land_assoc, Z.land_ldiff.
        apply Z.land_0_l.
    - rewrite (Z.land_comm a b), Z.land_assoc, Z.land_ldiff.
      apply Z.land_0_l. }
  lia.
Qed.

(** X18.  For 32-bit [a] and [mask], [maskBits(a, mask)] is a 32-bit
    value that exceeds neither [a] nor [mask]; masking again with the
    same mask changes nothing, and the full mask [0xFFFFFFFF] keeps
    [a].  [maskBits(0b1100, 0b1010) == 0b1000]. *)
Theorem maskBits_bounds_and_idempotent (a mask : Z) :
  0 <= a < 2 ^ 32 -> 0 <= mask < 2 ^ 32 ->
  0 <= maskBits a mask
  /\ maskBits a mask <= a
  /\ maskBits a mask <= mask
  /\ maskBits (maskBits a mask) mask = maskBits a mask
  /\ maskBits a 0xFFFFFFFF = a
  /\ maskBits 12 10 = 8.
Proof.
  intros Ha Hm. unfold maskBits. repeat split.
  - apply Z.land_nonneg. left. lia.
  - apply land_le_l. lia.
  - rewrite Z.land_comm. apply land_le_l. lia.
  - rewrite <- Z.land_assoc, Z.land_diag. reflexivity.
  - change 0xFFFFFFFF with (Z.ones 32). rewrite Z.land_ones by discriminate.
    apply Z.mod_small. assumption.
Qed.

Lemma maskBits_bounds_and_idempotent_witness :
  maskBits 0xDEADBEEF 0x00FF00FF <= 0x00FF00FF
  /\ maskBits (maskBits 0xDEADBEEF 0x00FF00FF) 0x00FF00FF
     = maskBits 0xDEADBEEF 0x00FF00FF.
Proof.
  destruct (maskBits_bounds_and_idempotent 0xDEADBEEF 0x00FF00FF)
    as (_ & _ & Hle & Hid & _);
    [split; [discriminate | reflexivity] ..|].
  split; [exact Hle | exact Hid].
Defined.

Lemma all_bytes_reversed_twice :
  forallb (fun b => reverseBits (reverseBits b) =? b) bytes = true.
Proof. vm_compute. reflexivity. Qed.

Lemma reverseBits_twice_byte (b : Z) :
  0 <= b < 256 -> reverseBits (reverseBits b) = b.
Proof.
  intros Hb. pose proof all_bytes_reversed_twice as Hall.
  rewrite forallb_forall in Hall.
  specialize (Hall b (in_bytes b Hb)). cbv beta in Hall.
  apply Z.eqb_eq. exact Hall.
Qed.

(** X19.  [reverseBits] undoes itself on the low byte and drops the
    rest: for every 32-bit [a], [reverseBits(reverseBits(a))] is
    [maskBits(a, 0xFF)], and [reverseBits(maskBits(a, 0xFF))] is
    [reverseBits(a)].  So two 32-bit values have the same image exactly
    when their low bytes are equal. *)
Theorem reverseBits_twice (a : Z) :
  0 <= a < 2 ^ 32 ->
  reverseBits (reverseBits a) = maskBits a 0xFF
  /\ reverseBits (maskBits a 0xFF) = reverseBits a
  /\ (forall b, 0 <= b < 2 ^ 32 ->
        (reverseBits a = reverseBits b <-> maskBits a 0xFF = maskBits b 0xFF)).
Proof.
  intros Ha.
  assert (Hmask : forall x, maskBits x 0xFF = x mod 256).
  { intros x. unfold maskBits. change 0xFF with (Z.ones 8).
    apply Z.land_ones. discriminate. }
  assert (Htwice : forall x, reverseBits (reverseBits x) = x mod 256).
  { intros x. rewrite (reverseBits_low_byte_only x).
    apply reverseBits_twice_byte. apply Z.mod_pos_bound. reflexivity. }
  rewrite !Hmask. split; [apply Htwice|]. split.
  - symmetry. apply reverseBits_low_byte_only.
  - intros b Hb. rewrite Hmask. split; intros Heq.
    + rewrite <- (Htwice a), <- (Htwice b), Heq. reflexivity.
    + rewrite (reverseBits_low_byte_only a), (reverseBits_low_byte_only b),
        Heq. reflexivity.
Qed.

Lemma reverseBits_twice_witness :
  reverseBits (reverseBits 0x12345678) = 0x78
  /\ (reverseBits 0x12345678 = reverseBits 0xFFFFFF78
      <-> maskBits 0x12345678 0xFF = maskBits 0xFFFFFF78 0xFF).
Proof.
  destruct (reverseBits_twice 0x12345678) as (H1 & _ & H3);
    [split; [discriminate | reflexivity]|].
  split.
  - rewrite H1. reflexivity.
  - apply H3. split; [discriminate | reflexivity].
Defined.

(** ** The binary strings *)

Module BinaryStringsFacts.

Import Ascii String BinaryStrings.

Lemma bit_char_is_one (b : bool) :
  (if Ascii.eqb (bit_char b) "1" then 1 else 0) = Z.b2z b.
Proof. destruct b; reflexivity. Qed.

Lemma bitset_to_string_length (N : nat) (v : Z) :
  String.length (bitset_to_string N v) = N.
Proof. induction N as [|k IH]; simpl; [reflexivity | f_equal; exact IH]. Qed.

(** Position [i] of the string holds bit [N - 1 - i]. *)
Lemma bitset_to_string_get (v : Z) (N : nat) :
  forall i : nat,
    (i < N)%nat ->
    String.get i (bitset_to_string N v)
    = Some (bit_char (Z.testbit v (Z.of_nat (N - 1 - i)))).
Proof.
  induction N as [|k IH]; intros i Hi; [lia|].
  cbn [bitset_to_string]. destruct i as [|i]; cbn [String.get].
  - do 3 f_equal. lia.
  - rewrite IH by lia. do 3 f_equal. lia.
Qed.

Lemma split_top_bit (v : Z) (k : nat) :
  v mod 2 ^ Z.of_nat (S k)
  = Z.b2z (Z.testbit v (Z.of_nat k)) * 2 ^ Z.of_nat k + v mod 2 ^ Z.of_nat k.
Proof.
  rewrite Nat2Z.inj_succ, Z.pow_succ_r by lia.
  rewrite (Z.mul_comm 2), Z.rem_mul_r by lia.
  rewrite Z.testbit_spec' by lia. lia.
Qed.

(** Reading the string back gives the [N] low bits as a number. *)
Lemma binary_value_from_bitset (v : Z) (N : nat) :
  forall acc,
    binary_value_from acc (bitset_to_string N v)
    = acc * 2 ^ Z.of_nat N + v mod 2 ^ Z.of_nat N.
Proof.
  induction N as [|k IH]; intros acc.
  - simpl. rewrite Z.mod_1_r. lia.
  - cbn [bitset_to_string binary_value_from].
    rewrite bit_char_is_one, IH, split_top_bit.
    rewrite Nat2Z.inj_succ, Z.pow_succ_r by lia. ring.
Qed.

(** X20.  [decToBin32] and [decToBin16] return strings of exactly 32
    and 16 characters, and reading the string back as a binary number
    gives the argument modulo [2^32] and [2^16]: the two's complement
    pattern, for a negative argument.  On [int32_t] and [int16_t]
    arguments different numbers give different strings. *)
Theorem decToBin_round_trip (decimal : Z) :
  String.length (decToBin32 decimal) = 32%nat
  /\ String.length (decToBin16 decimal) = 16%nat
  /\ binary_value (decToBin32 decimal) = decimal mod 2 ^ 32
  /\ binary_value (decToBin16 decimal) = decimal mod 2 ^ 16
  /\ (forall other,
        - 2 ^ 31 <= decimal < 2 ^ 31 -> - 2 ^ 31 <= other < 2 ^ 31 ->
        decToBin32 decimal = decToBin32 other -> decimal = other)
  /\ (forall other,
        - 2 ^ 15 <= decimal < 2 ^ 15 -> - 2 ^ 15 <= other < 2 ^ 15 ->
        decToBin16 decimal = decToBin16 other -> decimal = other).
Proof.
  assert (H32 : forall d, binary_value (decToBin32 d) = d mod 2 ^ 32).
  { intros d. unfold binary_value, decToBin32.
    rewrite binary_value_from_bitset. reflexivity. }
  assert (H16 : forall d, binary_value (decToBin16 d) = d mod 2 ^ 16).
  { intros d. unfold binary_value, decToBin16.
    rewrite binary_value_from_bitset. reflexivity. }
  split; [apply bitset_to_string_length|].
  split; [apply bitset_to_string_length|].
  split; [apply H32|]. split; [apply H16|]. split.
  - intros other Hd Ho Heq.
    assert (Hm : decimal mod 2 ^ 32 = other mod 2 ^ 32)
      by (rewrite <- !H32, Heq; reflexivity).
    pose proof (Z.div_mod decimal (2 ^ 32) ltac:(discriminate)) as H1.
    pose proof (Z.div_mod other (2 ^ 32) ltac:(discriminate)) as H2.
    rewrite Hm in H1.
    change (2 ^ 32) with 4294967296 in *.
    change (2 ^ 31) with 2147483648 in *. lia.
  - intros other Hd Ho Heq.
    assert (Hm : decimal mod 2 ^ 16 = other mod 2 ^ 16)
      by (rewrite <- !H16, Heq; reflexivity).
    pose proof (Z.div_mod decimal (2 ^ 16) ltac:(discriminate)) as H1.
    pose proof (Z.div_mod other (2 ^ 16) ltac:(discriminate)) as H2.
    rewrite Hm in H1.
    change (2 ^ 16) with 65536 in *.
    change (2 ^ 15) with 32768 in *. lia.
Qed.

Lemma decToBin_round_trip_witness :
  binary_value (decToBin32 (-2)) = 4294967294
  /\ (decToBin16 (-7) = decToBin16 (-7) -> -7 = -7).
Proof.
  destruct (decToBin_round_trip (-2)) as (_ & _ & H32 & _).
  destruct (decToBin_round_trip (-7)) as (_ & _ & _ & _ & _ & H16).
  split.
  - rewrite H32. reflexivity.
  - apply H16; split; (discriminate || reflexivity).
Defined.

(** X21.  The strings are written most significant bit first: for
    [i < 32], character [i] of [decToBin32(decimal)] is ['1'] when bit
    [31 - i] of [decimal] is set and ['0'] otherwise, and the same with
    [15 - i] for [decToBin16].  [decToBin16(5)] is
    ["0000000000000101"] and [decToBin32(-1)] is 32 times ['1']. *)
Theorem decToBin_digits (decimal : Z) (i : nat) :
  ((i < 32)%nat ->
   String.get i (decToBin32 decimal)
   = Some (if Z.testbit decimal (31 - Z.of_nat i) then "1"%char
           else "0"%char))
  /\ ((i < 16)%nat ->
      String.get i (decToBin16 decimal)
      = Some (if Z.testbit decimal (15 - Z.of_nat i) then "1"%char
              else "0"%char))
  /\ decToBin16 5 = "0000000000000101"%string
  /\ decToBin32 (-1) = "11111111111111111111111111111111"%string.
Proof.
  split; [|split; [|split; reflexivity]]; intros Hi.
  - unfold decToBin32. rewrite bitset_to_string_get by assumption.
    replace (31 - Z.of_nat i) with (Z.of_nat (32 - 1 - i)) by lia.
    reflexivity.
  - unfold decToBin16. rewrite bitset_to_string_get by assumption.
    replace (15 - Z.of_nat i) with (Z.of_nat (16 - 1 - i)) by lia.
    reflexivity.
Qed.

Lemma decToBin_digits_witness :
  String.get 29 (decToBin32 5) = Some "1"%char
  /\ String.get 0 (decToBin16 (-32768)) = Some "1"%char.
Proof.
  split.
  - rewrite (proj1 (decToBin_digits 5 29)) by (repeat constructor).
    reflexivity.
  - rewrite (proj1 (proj2 (decToBin_digits (-32768) 0)))
      by (repeat constructor).
    reflexivity.
Defined.

End BinaryStringsFacts.

(** ** The range of [LehmerFloat]

    [(float)x] for a 64-bit [x] and the division by [(float)UINT64_MAX],
    which is [2^64], are followed through [SpecFloat]'s rounding, with
    the lemmas on its two shifts proved for the clamped mapping. *)

(** The second shift: a mantissa of 24 bits stays, [2^24] becomes
    [2^23] one exponent higher. *)
Lemma shr_fexp_normalised (q : positive) (e : Z) :
  2 ^ 23 <= Z.pos q <= 2 ^ 24 -> -149 <= e ->
  shr_m (fst (shr_fexp F32.prec F32.emax (Z.pos q) e loc_Exact))
  = (if Z.pos q <? 2 ^ 24 then Z.pos q else 2 ^ 23)
  /\ snd (shr_fexp F32.prec F32.emax (Z.pos q) e loc_Exact)
     = (if Z.pos q <? 2 ^ 24 then e else e + 1).
Proof.
  intros Hq He.
  destruct (shr_fexp_m q e loc_Exact) as [Hm Hs]. cbv zeta in Hm, Hs.
  rewrite Hm, Hs. rewrite fexp_value.
  destruct (Z.ltb_spec (Z.pos q) (2 ^ 24)) as [Hlt|Hge].
  - rewrite (digits2_pos_unique q 24) by (simpl; lia).
    replace (Z.max (Z.max (24 + e - 24) (-149) - e) 0) with 0 by lia.
    rewrite Z.div_1_r. lia.
  - assert (Heq : Z.pos q = 2 ^ 24) by lia.
    rewrite (digits2_pos_unique q 25) by (simpl; lia).
    replace (Z.max (Z.max (25 + e - 24) (-149) - e) 0) with 1 by lia.
    rewrite Heq. split; [reflexivity | lia].
Qed.

(** Rounding a mantissa of at least 24 bits: the result is a normal
    number whose exponent is the one of the shifted mantissa, or the
    next one with mantissa [2^23] when the rounding carried. *)
Lemma binary_round_aux_shape (sx : bool) (p : positive) (ex : Z)
  (lx : location) :
  let d := Z.pos (digits2_pos p) in
  24 <= d -> -149 <= ex + (d - 24) -> ex + (d - 24) < 104 ->
  exists m e,
    binary_round_aux F32.prec F32.emax sx (Z.pos p) ex lx
    = S754_finite sx m e
    /\ 2 ^ 23 <= Z.pos m < 2 ^ 24
    /\ (e = ex + (d - 24) \/ e = ex + (d - 24) + 1 /\ Z.pos m = 2 ^ 23).
Proof.
  cbv zeta. intros Hd Hlo Hhi. unfold binary_round_aux.
  destruct (shr_fexp_m p ex lx) as [Hm1 He1]. cbv zeta in Hm1, He1.
  rewrite fexp_value in Hm1, He1.
  replace (Z.max (Z.max (Z.pos (digits2_pos p) + ex - 24) (-149) - ex) 0)
    with (Z.pos (digits2_pos p) - 24) in Hm1, He1 by lia.
  destruct (shr_fexp F32.prec F32.emax (Z.pos p) ex lx) as [mrs1 e1].
  cbn [fst snd] in Hm1, He1.
  set (d := Z.pos (digits2_pos p)) in *.
  assert (Hm1b : 2 ^ 23 <= shr_m mrs1 < 2 ^ 24).
  { pose proof (digits2_pos_bounds p) as [Hp1 Hp2]. fold d in Hp1, Hp2.
    assert (Hpow : 0 < 2 ^ (d - 24)) by (apply Z.pow_pos_nonneg; lia).
    rewrite Hm1. split.
    - apply Z.div_le_lower_bound; [assumption|].
      rewrite <- Z.pow_add_r by lia.
      replace (d - 24 + 23) with (d - 1) by lia. assumption.
    - apply Z.div_lt_upper_bound; [assumption|].
      rewrite <- Z.pow_add_r by lia.
      replace (d - 24 + 24) with d by lia. assumption. }
  set (m2 := round_nearest_even (shr_m mrs1) (loc_of_shr_record mrs1)).
  assert (Hm2 : 2 ^ 23 <= m2 <= 2 ^ 24).
  { unfold m2.
    destruct (round_nearest_even_cases (shr_m mrs1) (loc_of_shr_record mrs1))
      as [-> | ->]; lia. }
  destruct m2 as [|q|q] eqn:Em2; try (exfalso; lia).
  destruct (shr_fexp_normalised q e1 Hm2 ltac:(lia)) as [Hm3 He3].
  destruct (shr_fexp F32.prec F32.emax (Z.pos q) e1 loc_Exact) as [mrs3 e3].
  cbn [fst snd] in Hm3, He3.
  destruct (Z.ltb_spec (Z.pos q) (2 ^ 24)) as [Hlt|Hge].
  - rewrite Hm3. replace (e3 <=? F32.emax - F32.prec) with true
      by (symmetry; apply Z.leb_le; change (F32.emax - F32.prec) with 104; lia).
    exists q, e3. split; [reflexivity|]. split; [lia|]. left. lia.
  - rewrite Hm3. change (2 ^ 23) with (Z.pos 8388608).
    replace (e3 <=? F32.emax - F32.prec) with true
      by (symmetry; apply Z.leb_le; change (F32.emax - F32.prec) with 104; lia).
    exists 8388608%positive, e3. split; [reflexivity|].
    split; [split; [discriminate | reflexivity]|]. right. split; [lia|reflexivity].
Qed.

Lemma shr_fexp_by (p : positive) (e : Z) (l : location) (n : Z) :
  fexp F32.prec F32.emax (Z.pos (digits2_pos p) + e) - e = n ->
  shr_fexp F32.prec F32.emax (Z.pos p) e l
  = shr (shr_record_of_loc (Z.pos p) l) e n.
Proof. intros <-. reflexivity. Qed.

(** An integer below [2^64] converts to a normal number below [2^64],
    or to [2^64] itself. *)
Lemma of_Z_shape (p : positive) :
  Z.pos p < 2 ^ 64 ->
  exists m e,
    F32.of_Z (Z.pos p) = S754_finite false m e
    /\ 2 ^ 23 <= Z.pos m < 2 ^ 24
    /\ -23 <= e
    /\ (e <= 40 \/ e = 41 /\ Z.pos m = 2 ^ 23).
Proof.
  intros Hp. unfold F32.of_Z, binary_normalize, binary_round.
  pose proof (digits2_pos_bounds p) as [Hd1 Hd2].
  set (d := Z.pos (digits2_pos p)) in *.
  assert (Hd : 1 <= d <= 64).
  { split; [unfold d; lia|].
    destruct (Z_lt_le_dec 64 d) as [Hbig|]; [|assumption].
    assert (2 ^ 64 <= 2 ^ (d - 1)) by (apply Z.pow_le_mono_r; lia). lia. }
  rewrite fexp_value. replace (Z.max (d + 0 - 24) (-149)) with (d - 24) by lia.
  unfold shl_align. rewrite Z.sub_0_r.
  destruct (d - 24) as [|k|k] eqn:Ek.
  - assert (Hd24 : d = 24) by lia.
    destruct (binary_round_aux_shape false p 0 loc_Exact)
      as (m & e & Hr & Hm & He); fold d; try lia.
    exists m, e. rewrite Hr. repeat split; try lia.
  - destruct (binary_round_aux_shape false p 0 loc_Exact)
      as (m & e & Hr & Hm & He); fold d; try lia.
    exists m, e. rewrite Hr. fold d in He. repeat split; try lia.
  - assert (Hmz : Z.pos (Pos.iter xO p k) = Z.pos p * 2 ^ Z.pos k)
      by apply pos_iter_xO.
    assert (Hk : Z.pos k = 24 - d) by lia.
    assert (Hrange : 2 ^ 23 <= Z.pos (Pos.iter xO p k) < 2 ^ 24).
    { rewrite Hmz, Hk. split.
      - replace 23 with (d - 1 + (24 - d)) by lia.
        rewrite Z.pow_add_r by lia.
        apply Z.mul_le_mono_nonneg_r; [apply Z.pow_nonneg; lia | assumption].
      - replace 24 with (d + (24 - d)) at 2 by lia.
        rewrite Z.pow_add_r by lia.
        apply Z.mul_lt_mono_pos_r; [apply Z.pow_pos_nonneg; lia | assumption]. }
    pose proof (digits2_pos_unique (Pos.iter xO p k) 24 ltac:(simpl; lia))
      as Hdig.
    destruct (binary_round_aux_shape false (Pos.iter xO p k) (Z.neg k)
                loc_Exact) as (m & e & Hr & Hm & He);
      rewrite ?Hdig; try lia.
    exists m, e. rewrite Hr. rewrite Hdig in He. repeat split; try lia.
Qed.

(** Dividing such a number by [2^64] only lowers the exponent. *)
Lemma div_by_two_64 (m : positive) (e : Z) :
  2 ^ 23 <= Z.pos m < 2 ^ 24 -> -23 <= e <= 41 ->
  F32.div (S754_finite false m e) (S754_finite false 8388608 41)
  = S754_finite false m (e - 64).
Proof.
  intros Hm He.
  pose proof (digits2_pos_unique m 24 ltac:(simpl; lia)) as Hdig.
  unfold F32.div, SFdiv, SFdiv_core_binary. cbv zeta. cbn [Zdigits2].
  rewrite Hdig. change (Z.pos (digits2_pos 8388608)) with 24.
  rewrite fexp_value.
  replace (Z.min (Z.max (24 + e - (24 + 41) - 24) (-149)) (e - 41))
    with (e - 65) by lia.
  replace (e - 41 - (e - 65)) with 24 by lia. cbv iota.
  replace (Z.div_eucl (Z.shiftl (Z.pos m) 24) 8388608)
    with (Z.pos m~0, 0).
  2:{ rewrite Z.shiftl_mul_pow2 by discriminate.
      pose proof (Z_div_mult_full (2 * Z.pos m) 8388608 ltac:(discriminate))
        as Hq.
      pose proof (Z_mod_mult (2 * Z.pos m) 8388608) as Hr.
      unfold Z.div, Z.modulo in Hq, Hr.
      replace (2 * Z.pos m * 8388608) with (Z.pos m * 2 ^ 24) in Hq, Hr
        by (change (2 ^ 24) with 16777216; lia).
      destruct (Z.div_eucl (Z.pos m * 2 ^ 24) 8388608) as [q r].
      subst. reflexivity. }
  change (new_location 8388608 0) with loc_Exact.
  change (xorb false false) with false.
  unfold binary_round_aux.
  rewrite (shr_fexp_by m~0 (e - 65) loc_Exact 1).
  2:{ cbn [digits2_pos]. rewrite Pos2Z.inj_succ, Hdig, fexp_value. lia. }
  cbn [shr shr_record_of_loc iter_pos shr_1 shr_m loc_of_shr_record
       round_nearest_even orb].
  rewrite (shr_fexp_by m (e - 65 + 1) loc_Exact 0).
  2:{ rewrite Hdig, fexp_value. lia. }
  cbn [shr shr_record_of_loc shr_m].
  replace (e - 65 + 1 <=? F32.emax - F32.prec) with true
    by (symmetry; apply Z.leb_le; change (F32.emax - F32.prec) with 104; lia).
  f_equal. lia.
Qed.

Lemma of_Z_UINT64_MAX :
  F32.of_Z UINT64_MAX = S754_finite false 8388608 41.
Proof. reflexivity. Qed.

Lemma convert_and_scale_range (z : Z) :
  0 <= z < 2 ^ 64 ->
  let r := F32.div (F32.of_Z z) (F32.of_Z UINT64_MAX) in
  F32.leb F32.zero r = true /\ F32.leb r F32.one = true.
Proof.
  intros Hz. cbv zeta. rewrite of_Z_UINT64_MAX.
  destruct z as [|p|p]; [split; reflexivity| |lia].
  destruct (of_Z_shape p ltac:(lia)) as (m & e & -> & Hm & He1 & He2).
  rewrite div_by_two_64 by lia. split; [reflexivity|].
  unfold F32.leb, SFleb, F32.one, SFcompare.
  destruct He2 as [He2|[-> Hm23]].
  - replace (e - 64 ?= -23) with Lt by (symmetry; apply Z.compare_lt_iff; lia).
    reflexivity.
  - change (41 - 64 ?= -23) with Eq. cbv iota.
    change (2 ^ 23) with (Z.pos 8388608) in Hm23.
    injection Hm23 as ->. reflexivity.
Qed.

Lemma LehmerInt64_range (seed : Z) : 0 <= LehmerInt64 seed < 2 ^ 64.
Proof.
  unfold LehmerInt64. cbv zeta. apply fold_high_range, wrap64_range.
Qed.

(** X22.  For every seed, [LehmerFloat(seed)] lies in [[0, 1]], both
    ends included: the seed [18446744069932516331] gives [0.0] and the
    seed [13167473948527758286], whose mix is [2^64 - 1], gives
    exactly [1.0]. *)
Theorem LehmerFloat_range (seed : Z) :
  F32.leb F32.zero (LehmerFloat seed) = true
  /\ F32.leb (LehmerFloat seed) F32.one = true
  /\ LehmerFloat 18446744069932516331 = F32.zero
  /\ LehmerFloat 13167473948527758286 = F32.one.
Proof.
  destruct (convert_and_scale_range (LehmerInt64 seed)
              (LehmerInt64_range seed)) as [Hlo Hhi].
  split; [exact Hlo|]. split; [exact Hhi|]. split; reflexivity.
Qed.

(** X23.  Every call of [LehmerFloat()], after any sequence of calls of
    the three overloads, returns a value in [[0, 1]]. *)
Theorem LehmerFloat_noseed_range (calls : list EntryPoint) :
  let r := fst (LehmerFloat_noseed (run calls initial)) in
  F32.leb F32.zero r = true /\ F32.leb r F32.one = true.
Proof.
  cbv zeta.
  change (fst (LehmerFloat_noseed (run calls initial)))
    with (LehmerFloat (wrap64 (seed_LehmerFloat (run calls initial) + 1))).
  apply convert_and_scale_range, LehmerInt64_range.
Qed.

(** ** Ease-in and ease-out at the two ends *)

Section EaseInOutEnds.

Variable pow : F32.t -> F32.t -> F32.t.

(** X24.  For an exponent with [pow(1, exp) = 1] and [pow(0, exp) = 0]
    (C99 F.10.4.4: every [exp > 0]), [fInterpEaseIn] and
    [fInterpEaseOut] start and end where [fLerp] does: at [alpha = 0]
    both are [fLerp(A, B, 0)] and at [alpha = 1] both are
    [fLerp(A, B, 1)]. *)
Theorem fInterpEase_ends (A B exp : F32.t) :
  pow F32.one exp = F32.one ->
  pow F32.zero exp = F32.zero ->
  fInterpEaseIn pow A B F32.zero exp = fLerp A B F32.zero
  /\ fInterpEaseIn pow A B F32.one exp = fLerp A B F32.one
  /\ fInterpEaseOut pow A B F32.zero exp = fLerp A B F32.zero
  /\ fInterpEaseOut pow A B F32.one exp = fLerp A B F32.one.
Proof.
  intros H1 H0.
  unfold fInterpEaseIn, fInterpEaseOut, InterpEaseIn_float,
    InterpEaseOut_float, fLerp.
  rewrite H1, H0.
  change (F32.sub F32.one F32.zero) with F32.one.
  change (F32.sub F32.one F32.one) with F32.zero.
  rewrite H1, H0.
  change (F32.sub F32.one F32.zero) with F32.one.
  change (F32.sub F32.one F32.one) with F32.zero.
  repeat split.
Qed.

End EaseInOutEnds.

Lemma fInterpEase_ends_witness :
  fInterpEaseIn pow_sample (F32.of_Z 2) (F32.of_Z 6) F32.one F32.one
  = F32.of_Z 6
  /\ fInterpEaseOut pow_sample (F32.of_Z 2) (F32.of_Z 6) F32.zero F32.one
     = F32.of_Z 2.
Proof.
  destruct (fInterpEase_ends pow_sample (F32.of_Z 2) (F32.of_Z 6) F32.one
              eq_refl eq_refl) as (_ & H1 & H2 & _).
  split; [rewrite H1 | rewrite H2]; reflexivity.
Defined.

(** ** The tolerance test *)

(** X25.  [NearTolerance] does not look at the sign of its argument,
    is false for NaN whatever the tolerance, and with the default
    tolerance is true for both zeros and false for the infinities. *)
Theorem NearTolerance_sign_and_specials (value tolerance : F32.t) :
  NearTolerance (SFopp value) tolerance = NearTolerance value tolerance
  /\ NearTolerance S754_nan tolerance = false
  /\ NearTolerance (S754_zero true) SMALL_NUMBER = true
  /\ NearTolerance (S754_zero false) SMALL_NUMBER = true
  /\ (NearTolerance value SMALL_NUMBER = true ->
      F32.is_finite value = true).
Proof.
  split; [destruct value; reflexivity|].
  split; [reflexivity|]. split; [reflexivity|]. split; [reflexivity|].
  destruct value as [s|s| |s m e]; intros Hn; try reflexivity;
    discriminate Hn.
Qed.

Lemma NearTolerance_sign_and_specials_witness :
  F32.is_finite (S754_finite true 1 (-149)) = true.
Proof.
  exact (proj2 (proj2 (proj2 (proj2
    (NearTolerance_sign_and_specials (S754_finite true 1 (-149))
       SMALL_NUMBER)))) eq_refl).
Defined.
